(** * Spheral helpers ([shelpers.py]): collecting and flattening node lists

    A shallow embedding of the three serialisation helpers of [shelpers.py]
    ([spickle_node_list], [pflatten_node_list], [pflatten_node_list_list])
    together with the facts about them that the specification states.

    The source is Python 2 (print statements, [cPickle]); values that the
    code only inspects with [isinstance] are kept dynamically typed. *)

From Stdlib Require Import ZArith Lia Ascii String.
From stdpp Require Import gmap strings list pretty.

Local Open Scope Z_scope.

(** ** Floating point values as data

    The helpers never compute with field values: they move them around and
    format them. A binary floating point number is a signed dyadic rational
    [m * 2^e], a signed zero, an infinity or a NaN; binary64 values are the
    ones with [m < 2^53] and [-1074 <= e <= 971]. *)

Inductive pyfloat : Type :=
  | FNan
  | FInf (neg : bool)
  | FZero (neg : bool)
  | FFin (neg : bool) (m : positive) (e : Z).

Global Instance pyfloat_eq_dec : EqDecision pyfloat.
Proof. solve_decision. Defined.

(** ** String helpers *)

Definition newline : string := String (ascii_of_nat 10) "".

Fixpoint replicate_char (n : nat) (c : ascii) : string :=
  match n with
  | O => ""
  | S n' => String c (replicate_char n' c)
  end.

(** Right alignment in a field of [width] columns, the default alignment of
    numbers in [str.format]; longer texts are never cut. *)
Definition pad_left (width : nat) (c : ascii) (s : string) : string :=
  replicate_char (width - String.length s) c +:+ s.

(** ["{:2d}".format(n)] *)
Definition format_2d (n : Z) : string := pad_left 2 " "%char (pretty n).

(** ** Scientific notation: ["{0:+12.5e}".format(x)]

    The value [num/den > 0] is written [d.ddddd e+-XX] where the mantissa
    [d.ddddd] is the value scaled into [[1,10)] and rounded half-to-even to
    [prec] digits after the point. *)

(** Number of decimal digits of [q >= 1], minus one. *)
Fixpoint log10_floor (fuel : nat) (q : Z) : Z :=
  match fuel with
  | O => 0
  | S f => if q <? 10 then 0 else 1 + log10_floor f (q / 10)
  end.

(** Least [j >= 1] with [num * 10^j >= den], for [0 < num < den]. *)
Fixpoint neg_exp10 (fuel : nat) (num den : Z) : Z :=
  match fuel with
  | O => 1
  | S f => if den <=? num * 10 then 1 else 1 + neg_exp10 f (num * 10) den
  end.

(** Decimal exponent [k] with [10^k <= num/den < 10^(k+1)]. *)
Definition dec_exponent (num den : Z) : Z :=
  if den <=? num
  then log10_floor (S (Z.to_nat (Z.log2 (num / den)))) (num / den)
  else - neg_exp10 (S (Z.to_nat (Z.log2 den))) num den.

(** [num/den] rounded to the nearest integer, ties to even. *)
Definition round_half_even (num den : Z) : Z :=
  let q := num / den in
  let r := num mod den in
  match 2 * r ?= den with
  | Lt => q
  | Gt => q + 1
  | Eq => if Z.even q then q else q + 1
  end.

(** [num/den * 10^s] as a fraction, for either sign of [s]. *)
Definition scale10 (num den s : Z) : Z * Z :=
  if 0 <=? s then (num * 10 ^ s, den) else (num, den * 10 ^ (- s)).

(** Mantissa (an integer of [prec+1] digits) and decimal exponent of
    [num/den] in scientific notation with [prec] digits after the point. *)
Definition sci_digits (prec : Z) (num den : Z) : Z * Z :=
  let k := dec_exponent num den in
  let '(n, d) := scale10 num den (prec - k) in
  let m := round_half_even n d in
  if m =? 10 ^ (prec + 1) then (10 ^ prec, k + 1) else (m, k).

Definition sign_text (neg : bool) : string := if neg then "-" else "+".

(** The exponent is written with a sign and at least two digits. *)
Definition exponent_text (k : Z) : string :=
  sign_text (k <? 0) +:+ pad_left 2 "0"%char (pretty (Z.abs k)).

(** [d.ddddd]: a point after the first digit of the mantissa. *)
Definition mantissa_text (m : Z) : string :=
  match pretty m with
  | String d rest => String d (String "."%char rest)
  | EmptyString => ""
  end.

(** The fraction [num/den] denoted by [m * 2^e]. *)
Definition dyadic (m : positive) (e : Z) : Z * Z :=
  if 0 <=? e then (Z.pos m * 2 ^ e, 1) else (Z.pos m, 2 ^ (- e)).

(** Text of [x] under the presentation type [e] with precision [prec] and
    the sign option [+], before padding. *)
Definition sci_text (prec : Z) (x : pyfloat) : string :=
  match x with
  | FNan => "+nan"
  | FInf neg => sign_text neg +:+ "inf"
  | FZero neg =>
      sign_text neg +:+ "0." +:+ replicate_char (Z.to_nat prec) "0"%char +:+ "e+00"
  | FFin neg m e =>
      let '(num, den) := dyadic m e in
      let '(mant, k) := sci_digits prec num den in
      sign_text neg +:+ mantissa_text mant +:+ "e" +:+ exponent_text k
  end.

(** ["{0:+12.5e}".format(x)] *)
Definition format_e (x : pyfloat) : string := pad_left 12 " "%char (sci_text 5 x).

Local Close Scope Z_scope.

(** ** Spheral objects seen by the helpers *)

Record Vector3d := mkVector3d {
  vec_x : pyfloat;
  vec_y : pyfloat;
  vec_z : pyfloat
}.

(** A symmetric 3x3 tensor, as in the [Hfield] of a node list. *)
Record SymTensor3d := mkSymTensor3d {
  t_xx : pyfloat; t_xy : pyfloat; t_xz : pyfloat;
  t_yy : pyfloat; t_yz : pyfloat; t_zz : pyfloat
}.

(** The numeric services of Spheral that the helpers call and that are not
    part of [shelpers.py]: [H.Inverse().eigenValues()] and the extreme
    elements of a vector. *)
Class SpheralMath := {
  inverse_eigenValues : SymTensor3d -> Vector3d;
  minElement : Vector3d -> pyfloat;
  maxElement : Vector3d -> pyfloat
}.

(** [nl.equationOfState()]: pressure and temperature of a node from its
    mass density and specific thermal energy. *)
Record EquationOfState := mkEOS {
  eos_pressure : pyfloat -> pyfloat -> pyfloat;
  eos_temperature : pyfloat -> pyfloat -> pyfloat
}.

Inductive nodelist_class := FluidNodeList3d | SolidNodeList3d.

(** One rank's view of a node list. A field holds one value per local node,
    the internal nodes first and the ghost nodes after them. The class is
    one of the two that the first assertion of every helper accepts, so that
    assertion holds of every value of this type. *)
Record NodeList := mkNodeList {
  nl_class : nodelist_class;
  nl_name : string;
  nl_label : string;
  numInternalNodes : nat;
  positions : list Vector3d;
  velocity : list Vector3d;
  mass : list pyfloat;
  massDensity : list pyfloat;
  specificThermalEnergy : list pyfloat;
  Hfield : list SymTensor3d;
  equationOfState : EquationOfState
}.

(** [field.internalValues()] *)
Definition internalValues {A} (nl : NodeList) (field : list A) : list A :=
  take (numInternalNodes nl) field.

(** [eos.setPressure(ploc, rref, uref)] and [eos.setTemperature(...)] on a
    fresh scalar field of the node list: one value per node. *)
Definition setPressure (eos : EquationOfState) (rref uref : list pyfloat) : list pyfloat :=
  zip_with (eos_pressure eos) rref uref.

Definition setTemperature (eos : EquationOfState) (rref uref : list pyfloat) : list pyfloat :=
  zip_with (eos_temperature eos) rref uref.

(** ** Python values and exceptions *)

(** Arguments that the helpers inspect with [isinstance]. In Python 2 [bool]
    is a subclass of [int], and [long] is not. *)
Inductive pyval : Type :=
  | PNone
  | PBool (b : bool)
  | PInt (n : Z)
  | PLong (n : Z)
  | PFloat (x : pyfloat)
  | PStr (s : string).

Definition isinstance_bool (v : pyval) : bool :=
  match v with PBool _ => true | _ => false end.

Definition isinstance_int (v : pyval) : bool :=
  match v with PBool _ | PInt _ => true | _ => false end.


(** [str(type(v))] *)
Definition type_text (v : pyval) : string :=
  match v with
  | PNone => "<type 'NoneType'>"
  | PBool _ => "<type 'bool'>"
  | PInt _ => "<type 'int'>"
  | PLong _ => "<type 'long'>"
  | PFloat _ => "<type 'float'>"
  | PStr _ => "<type 'str'>"
  end.

Inductive pyexn : Type :=
  | AssertionError (msg : string)
  | IndexError.

Inductive result (A : Type) : Type :=
  | Ok (a : A)
  | Raise (e : pyexn).
Arguments Ok {A} a.
Arguments Raise {A} e.

Global Instance result_ret : MRet result := fun A a => Ok a.

Global Instance result_bind : MBind result := fun A B k r =>
  match r with
  | Ok a => k a
  | Raise e => Raise e
  end.

(** [assert cond, msg] *)
Definition py_assert (cond : bool) (msg : string) : result unit :=
  if cond then Ok tt else Raise (AssertionError msg).

(** ** The process group *)

(** Modelled from the spec: [mpi.allreduce(v, mpi.SUM)] of the [mpi] wrapper,
    which is not part of the repository. Every rank receives the same value,
    Python's [+] folded over the contributions in ascending rank order (the
    order-preserving [reduceConcat] and the [reduceSum] of the process
    group); on lists [+] is concatenation, on numbers addition. *)
Definition allreduce_SUM {A} (add : A -> A -> A) (zero : A) (contributions : list A) : A :=
  foldl add zero contributions.

Definition allreduce_SUM_list {A} (contributions : list (list A)) : list A :=
  allreduce_SUM (@app A) [] contributions.

Definition allreduce_SUM_nat (contributions : list nat) : nat :=
  allreduce_SUM Nat.add O contributions.

(** A node list that is spread over the processes [0 .. procs-1] of a group
    is given by the view [group rank] that each rank holds of it. The
    contributions to a collective call, in ascending rank order: *)
Definition contributions {A} (procs : nat) (local : nat -> A) : list A :=
  local <$> seq 0 procs.

(** ** Files and output streams *)

Inductive dictval : Type :=
  | DStr (s : string)
  | DVecs (l : list (pyfloat * pyfloat * pyfloat))
  | DScalars (l : list pyfloat).

(** What one [write] or [pickle.dump] call puts into a file. The bytes of a
    file are its pieces one after the other. *)
Inductive chunk : Type :=
  | CText (s : string)
  | CPickle (d : gmap string dictval).

Record IO := mkIO {
  files : gmap string (list chunk);
  stdout : list string;
  stderr : list string
}.

(** Code that writes to the streams and files and may raise. *)
Definition M (A : Type) : Type := IO -> result A * IO.

Global Instance M_ret : MRet M := fun A a io => (Ok a, io).

Global Instance M_bind : MBind M := fun A B k m io =>
  match m io with
  | (Ok a, io') => k a io'
  | (Raise e, io') => (Raise e, io')
  end.

Definition lift {A} (r : result A) : M A := fun io => (r, io).

Definition stdout_write (s : string) : M unit := fun io =>
  (Ok tt, mkIO (files io) (stdout io ++ [s]) (stderr io)).

Definition stderr_write (s : string) : M unit := fun io =>
  (Ok tt, mkIO (files io) (stdout io) (stderr io ++ [s])).

(** [with open(filename, 'wb') as fid: pickle.dump(d, fid)] *)
Definition pickle_dump (filename : string) (d : gmap string dictval) : M unit := fun io =>
  (Ok tt, mkIO (<[filename := [CPickle d]]> (files io)) (stdout io) (stderr io)).

Definition when (b : bool) (m : M unit) : M unit :=
  if b then m else mret tt.

(** [assert isinstance(v, bool), msg], giving the boolean. *)
Definition assert_bool (v : pyval) (msg : string) : result bool :=
  match v with
  | PBool b => Ok b
  | _ => Raise (AssertionError msg)
  end.

(** ** [spickle_node_list] *)

(** One element of [zip(xloc, vloc, mloc, rloc, uloc, ploc, Tloc, Hloc)]. *)
Record NodeTuple := mkNodeTuple {
  tup_x : Vector3d;
  tup_v : Vector3d;
  tup_m : pyfloat;
  tup_rho : pyfloat;
  tup_u : pyfloat;
  tup_p : pyfloat;
  tup_T : pyfloat;
  tup_H : SymTensor3d
}.

(** Python's [zip] of eight sequences: as long as the shortest of them. *)
Definition zip8 (xs vs : list Vector3d) (ms rs us ps Ts : list pyfloat)
    (Hs : list SymTensor3d) : list NodeTuple :=
  (fun '(x, (v, (m, (r, (u, (p, (T, H))))))) => mkNodeTuple x v m r u p T H)
    <$> zip xs (zip vs (zip ms (zip rs (zip us (zip ps (zip Ts Hs)))))).

Definition localFields (nl : NodeList) : list NodeTuple :=
  let xloc := internalValues nl (positions nl) in
  let vloc := internalValues nl (velocity nl) in
  let mloc := internalValues nl (mass nl) in
  let rloc := internalValues nl (massDensity nl) in
  let uloc := internalValues nl (specificThermalEnergy nl) in
  let Hloc := internalValues nl (Hfield nl) in
  let eos := equationOfState nl in
  let rref := massDensity nl in
  let uref := specificThermalEnergy nl in
  let ploc := setPressure eos rref uref in
  let Tloc := setTemperature eos rref uref in
  zip8 xloc vloc mloc rloc uloc ploc Tloc Hloc.

(** [globalFields = mpi.allreduce(localFields, mpi.SUM)] *)
Definition globalFields (procs : nat) (group : nat -> NodeList) : list NodeTuple :=
  allreduce_SUM_list (contributions procs (fun r => localFields (group r))).

(** [mpi.allreduce(nl.numInternalNodes, mpi.SUM)] *)
Definition nbGlobalNodes (procs : nat) (group : nat -> NodeList) : nat :=
  allreduce_SUM_nat (contributions procs (fun r => numInternalNodes (group r))).

Definition empty_dict (name : string) : gmap string dictval :=
  <["name" := DStr name]> (
  <["x" := DVecs []]> (
  <["v" := DVecs []]> (
  <["m" := DScalars []]> (
  <["rho" := DScalars []]> (
  <["p" := DScalars []]> (
  <["h" := DVecs []]> (
  <["T" := DScalars []]> (
  <["U" := DScalars []]> ∅)))))))).

(** [d[key].append(t)] *)
Definition append_vec (key : string) (t : pyfloat * pyfloat * pyfloat)
    (d : gmap string dictval) : gmap string dictval :=
  alter (fun v => match v with DVecs l => DVecs (l ++ [t]) | _ => v end) key d.

Definition append_scalar (key : string) (x : pyfloat)
    (d : gmap string dictval) : gmap string dictval :=
  alter (fun v => match v with DScalars l => DScalars (l ++ [x]) | _ => v end) key d.

Definition xyz (v : Vector3d) : pyfloat * pyfloat * pyfloat :=
  (vec_x v, vec_y v, vec_z v).

Section Collect.
Context `{SpheralMath}.

(** The body of the loop over [k], for the tuple [globalFields[k]]. *)
Definition fill_node (t : NodeTuple) (d : gmap string dictval) : gmap string dictval :=
  append_vec "h" (xyz (inverse_eigenValues (tup_H t))) (
  append_scalar "T" (tup_T t) (
  append_scalar "p" (tup_p t) (
  append_scalar "U" (tup_u t) (
  append_scalar "rho" (tup_rho t) (
  append_scalar "m" (tup_m t) (
  append_vec "v" (xyz (tup_v t)) (
  append_vec "x" (xyz (tup_x t)) d))))))).

(** [for k in ks: ...]; indexing past the end raises [IndexError]. *)
Fixpoint fill_loop (gf : list NodeTuple) (ks : list nat)
    (d : gmap string dictval) : result (gmap string dictval) :=
  match ks with
  | [] => Ok d
  | k :: ks' =>
      match gf !! k with
      | Some t => fill_loop gf ks' (fill_node t d)
      | None => Raise IndexError
      end
  end.

Definition not_pickled_message (filename : pyval) : string :=
  "Dict NOT pickled to file because " +:+
  "argument 2 is " +:+ type_text filename +:+ " instead of " +:+ type_text (PStr "x").

(** The call of [spickle_node_list(nl, filename, silent)] made by the
    process of rank [rank] in a group of [procs] processes, where [nl] is
    [group rank]. *)
Definition spickle_node_list (procs : nat) (group : nat -> NodeList) (rank : nat)
    (filename silent : pyval) : M (gmap string dictval) :=
  let nl := group rank in
  quiet ← lift (assert_bool silent "true or false");
  when (negb quiet)
    (stdout_write ("Pickling " +:+ nl_label nl +:+ " " +:+ nl_name nl +:+ "........"));;
  let gf := globalFields procs group in
  let nlFieldDict := empty_dict (nl_name nl) in
  nlFieldDict ← lift (fill_loop gf (seq 0 (nbGlobalNodes procs group)) nlFieldDict);
  when (bool_decide (rank = 0))
    (match filename with
     | PNone => mret tt
     | PStr name => pickle_dump name nlFieldDict
     | _ => stderr_write (not_pickled_message filename +:+ newline)
     end);;
  when (negb quiet) (stdout_write ("Done." +:+ newline));;
  mret nlFieldDict.
End Collect.

(** ** The table header

    [header_template], on both sides of its [{}]. *)

Definition header_before : string := "
################################################################################
# This file contains output data from a Spheral++ simulation, including all 
# field variables as well as some diagnostic data and node meta data. This
# file should contain ".

Definition header_after : string := " data lines, one per SPH node used in the simulation.
# Line order is not significant and is not guaranteed to match the node ordering
# during the run, which itself is not significant. The columns contain field
# values in whatever units where used in the simulation. Usually MKS.
# Columns are:
#    | id | x | y | z | vx | vy | vz | m | rho | p | T | U | hmin | hmax |
#
# Column legend:
#    
#        id - an integer identifier of the node list this node came from
#     x,y,z - node space coordinates 
#  vx,vy,vz - node velocity components
#         m - node mass
#       rho - mass density
#         p - pressure
#         T - temperature
#         U - specific internal energy
# hmin,hmax - smallest and largest half-axes of the smoothing ellipsoid 
#
# Tip: load table into python with np.load()
#
################################################################################
".

(** [header_template.format(n)] *)
Definition header_text (n : nat) : string :=
  header_before +:+ pretty n +:+ header_after.

(** ** Processes of a group running side by side

    Every rank runs the same helper on its own data. What a rank does is a
    list of actions: operations on the shared file system and on its own
    standard output, collective calls, and a raised exception that ends it.
    A collective call returns on a rank only when every rank of the group has
    entered the same call. *)

Inductive op : Type :=
  | OpenW (path : string)
  | OpenA (path : string)
  | FWrite (path : string) (s : string)
  | FClose (path : string)
  | Print (s : string).

Inductive collective : Type :=
  | CAllreduce
  | CBarrier.

Inductive action : Type :=
  | Loc (o : op)
  | Coll (c : collective)
  | Throw (e : pyexn).

Inductive event : Type :=
  | ELoc (rank : nat) (o : op)
  | ESync (c : collective)
  | ERaise (rank : nat) (e : pyexn).

Global Instance op_eq_dec : EqDecision op.
Proof. solve_decision. Defined.
Global Instance collective_eq_dec : EqDecision collective.
Proof. solve_decision. Defined.
Global Instance pyexn_eq_dec : EqDecision pyexn.
Proof. solve_decision. Defined.
Global Instance event_eq_dec : EqDecision event.
Proof. solve_decision. Defined.

(** One step of the group: some rank performs its next local operation, or
    all ranks leave the collective call they have all reached, or some rank
    raises and stops. *)
Inductive step : list (list action) -> event -> list (list action) -> Prop :=
  | step_loc ps r o rest :
      ps !! r = Some (Loc o :: rest) ->
      step ps (ELoc r o) (<[r := rest]> ps)
  | step_sync ps c :
      ps <> [] ->
      Forall (fun p => head p = Some (Coll c)) ps ->
      step ps (ESync c) (tail <$> ps)
  | step_raise ps r e rest :
      ps !! r = Some (Throw e :: rest) ->
      step ps (ERaise r e) (<[r := []]> ps).

Inductive exec : list (list action) -> list event -> list (list action) -> Prop :=
  | exec_nil ps : exec ps [] ps
  | exec_cons ps ev ps1 tr ps2 :
      step ps ev ps1 -> exec ps1 tr ps2 -> exec ps (ev :: tr) ps2.

(** Every rank has returned. *)
Definition finished (ps : list (list action)) : Prop := Forall (fun p => p = []) ps.

(** The effect of an event on the files. Writes reach the file at once. *)
Definition apply_event (fs : gmap string (list chunk)) (ev : event) : gmap string (list chunk) :=
  match ev with
  | ELoc _ (OpenW path) => <[path := []]> fs
  | ELoc _ (OpenA path) =>
      match fs !! path with
      | Some _ => fs
      | None => <[path := []]> fs
      end
  | ELoc _ (FWrite path s) => <[path := default [] (fs !! path) ++ [CText s]]> fs
  | _ => fs
  end.

Definition run (fs : gmap string (list chunk)) (tr : list event) : gmap string (list chunk) :=
  foldl apply_event fs tr.

(** ** [pflatten_node_list] *)

(** [assert isinstance(v, str), msg], giving the string. *)
Definition assert_str (v : pyval) (msg : string) : result string :=
  match v with
  | PStr s => Ok s
  | _ => Raise (AssertionError msg)
  end.

(** The integer that ["{:2d}"] prints for a value of an integer type. *)
Definition int_value (v : pyval) : Z :=
  match v with
  | PInt n | PLong n => n
  | PBool b => Z.b2z b
  | _ => 0%Z
  end.

(** The two assertions on [nl_id]. *)
Definition check_nl_id (nl_id : pyval) : result unit :=
  py_assert (isinstance_int nl_id) "int only idents";;
  py_assert (negb (isinstance_bool nl_id)) "int only idents".

(** The assertions at the head of [pflatten_node_list], in their order; the
    one on [nl] holds by typing. *)
Definition pflatten_check (filename do_header nl_id silent : pyval)
    : result (string * bool * Z * bool) :=
  path ← assert_str filename "argument 2 must be a simple string";
  hdr ← assert_bool do_header "true or false";
  quiet ← assert_bool silent "true or false";
  check_nl_id nl_id;;
  mret (path, hdr, int_value nl_id, quiet).

Section Flatten.
Context `{SpheralMath}.

(** The text of the line of node [nk]; [None] when an index is out of range. *)
Definition node_line (nl : NodeList) (nl_id : Z) (nk : nat) : option string :=
  let xloc := internalValues nl (positions nl) in
  let vloc := internalValues nl (velocity nl) in
  let mloc := internalValues nl (mass nl) in
  let rloc := internalValues nl (massDensity nl) in
  let uloc := internalValues nl (specificThermalEnergy nl) in
  let Hloc := internalValues nl (Hfield nl) in
  let eos := equationOfState nl in
  let ploc := setPressure eos (massDensity nl) (specificThermalEnergy nl) in
  let Tloc := setTemperature eos (massDensity nl) (specificThermalEnergy nl) in
  x ← xloc !! nk;
  v ← vloc !! nk;
  m ← mloc !! nk;
  r ← rloc !! nk;
  p ← ploc !! nk;
  T ← Tloc !! nk;
  u ← uloc !! nk;
  H ← Hloc !! nk;
  Some (format_2d nl_id +:+ "  " +:+
        format_e (vec_x x) +:+ "  " +:+ format_e (vec_y x) +:+ "  " +:+
        format_e (vec_z x) +:+ "  " +:+
        format_e (vec_x v) +:+ "  " +:+ format_e (vec_y v) +:+ "  " +:+
        format_e (vec_z v) +:+ "  " +:+
        format_e m +:+ "  " +:+
        format_e r +:+ "  " +:+
        format_e p +:+ "  " +:+
        format_e T +:+ "  " +:+
        format_e u +:+ "  " +:+
        format_e (minElement (inverse_eigenValues H)) +:+ "  " +:+
        format_e (maxElement (inverse_eigenValues H)) +:+ "  " +:+
        newline).

(** [for nk in nks: ... fid.write(line)] *)
Fixpoint write_lines (path : string) (nl : NodeList) (nl_id : Z) (nks : list nat)
    : list action :=
  match nks with
  | [] => []
  | nk :: rest =>
      match node_line nl nl_id nk with
      | Some line => Loc (FWrite path line) :: write_lines path nl nl_id rest
      | None => [Throw IndexError]
      end
  end.

(** The body of [if proc == mpi.rank]. *)
Definition take_turn (path : string) (nl : NodeList) (nl_id : Z) : list action :=
  Loc (OpenA path) ::
  write_lines path nl nl_id (seq 0 (numInternalNodes nl)) ++
  [Loc (FClose path)].

(** [for proc in procs: if proc == mpi.rank: ...; mpi.barrier()] *)
Definition turns (procs : list nat) (rank : nat) (path : string) (nl : NodeList)
    (nl_id : Z) : list action :=
  concat ((fun proc =>
             (if bool_decide (proc = rank) then take_turn path nl nl_id else []) ++
             [Coll CBarrier]) <$> procs).

(** Rank 0 writes the header, overwriting the file. *)
Definition write_header (rank : nat) (path : string) (nbGlobalNodes : nat) : list action :=
  if bool_decide (rank = 0)
  then [Loc (OpenW path); Loc (FWrite path (header_text nbGlobalNodes)); Loc (FClose path)]
  else [].

Definition say (quiet : bool) (s : string) : list action :=
  if quiet then [] else [Loc (Print s)].

(** What the process of rank [rank] does in
    [pflatten_node_list(nl, filename, do_header, nl_id, silent)], in a
    group of [procs] processes, where [nl] is [group rank]. *)
Definition pflatten_node_list (procs : nat) (group : nat -> NodeList) (rank : nat)
    (filename do_header nl_id silent : pyval) : list action :=
  let nl := group rank in
  match pflatten_check filename do_header nl_id silent with
  | Raise e => [Throw e]
  | Ok (path, hdr, id, quiet) =>
      (if hdr
       then Coll CAllreduce :: write_header rank path (nbGlobalNodes procs group)
       else []) ++
      say quiet ("Flattening " +:+ nl_label nl +:+ " " +:+ nl_name nl +:+ "........") ++
      turns (seq 0 procs) rank path nl id ++
      say quiet ("Done." +:+ newline)
  end.

(** The processes of the whole group. *)
Definition pflatten_group (procs : nat) (group : nat -> NodeList)
    (filename do_header nl_id silent : pyval) : list (list action) :=
  contributions procs
    (fun rank => pflatten_node_list procs group rank filename do_header nl_id silent).

(** ** [pflatten_node_list_list] *)

Definition pflatten_list_check (filename do_header silent : pyval)
    : result (string * bool * bool) :=
  path ← assert_str filename "argument 2 must be a simple string";
  hdr ← assert_bool do_header "true or false";
  quiet ← assert_bool silent "true or false";
  mret (path, hdr, quiet).

(** [nbGlobalNodes = 0; for nl in nls: nbGlobalNodes += mpi.allreduce(...)] *)
Definition total_nodes (procs : nat) (nls : list (nat -> NodeList)) : nat :=
  foldl (fun n group => n + nbGlobalNodes procs group) 0 nls.

(** What the process of rank [rank] does in
    [pflatten_node_list_list(nls, filename, do_header, silent)]; the
    [k]-th node list of the rank is [group rank] for the [k]-th member
    [group] of [nls]. *)
Definition pflatten_node_list_list (procs : nat) (nls : list (nat -> NodeList))
    (rank : nat) (filename do_header silent : pyval) : list action :=
  match pflatten_list_check filename do_header silent with
  | Raise e => [Throw e]
  | Ok (path, hdr, quiet) =>
      (if hdr
       then ((fun _ => Coll CAllreduce) <$> nls) ++
            write_header rank path (total_nodes procs nls)
       else []) ++
      concat (imap (fun k group =>
                      pflatten_node_list procs group rank filename
                        (PBool false) (PInt (Z.of_nat k)) silent) nls) ++
      say quiet ("Done." +:+ newline)
  end.

Definition pflatten_list_group (procs : nat) (nls : list (nat -> NodeList))
    (filename do_header silent : pyval) : list (list action) :=
  contributions procs
    (fun rank => pflatten_node_list_list procs nls rank filename do_header silent).
End Flatten.

(** * More of the repository *)

(** ** [construct_eos_for_material] and [material_dictionary] *)

(** [sph.PhysicalConstants(unitLength, unitMass, unitTime)] *)
Record PhysicalConstants := mkPhysicalConstants {
  unitLengthMeters : pyfloat;
  unitMassKg : pyfloat;
  unitTimeSec : pyfloat
}.

(** The equation of state constructors that the dictionary names. *)
Inductive eos_ctor : Type :=
  | TillotsonEquationOfState.

(** An equation of state object, as the constructor call that made it:
    [constructor(materialName, etamin, etamax, units)]. *)
Record eos_object := mkEosObject {
  eo_constructor : eos_ctor;
  eo_materialName : string;
  eo_etamin : pyfloat;
  eo_etamax : pyfloat;
  eo_units : PhysicalConstants
}.

(** [{'materialName': ...}] *)
Record eos_arguments := mkEosArguments {
  materialName : string
}.

(** An entry of [material_dictionary]. *)
Record material := mkMaterial {
  eos_type : string;
  eos_constructor : eos_ctor;
  eos_args : eos_arguments;
  eos_id : nat
}.

(** The two statements that fill [material_dictionary]; [eos_id] is
    [len(material_dictionary.keys()) + 1], taken before the entry is stored. *)
Definition material_dictionary_h2oice : gmap string material :=
  <["h2oice" := mkMaterial "tillotson" TillotsonEquationOfState
                  (mkEosArguments "pure ice") (size (∅ : gmap string material) + 1)]> ∅.

Definition material_dictionary : gmap string material :=
  <["dirtyice" := mkMaterial "tillotson" TillotsonEquationOfState
                    (mkEosArguments "30% silicate ice")
                    (size material_dictionary_h2oice + 1)]>
    material_dictionary_h2oice.

(** The second argument: a [PhysicalConstants] object or something else. *)
Inductive units_arg : Type :=
  | UnitsObject (u : PhysicalConstants)
  | NotUnits (v : pyval).

Definition assert_float (v : pyval) : result pyfloat :=
  match v with
  | PFloat x => Ok x
  | _ => Raise (AssertionError "")
  end.

(** The defaults [etamin=0.94] and [etamax=100.0]. *)
Definition default_etamin : pyval := PFloat (FFin false 2116691824864133 (-51)).
Definition default_etamax : pyval := PFloat (FFin false 25 2).

(** [construct_eos_for_material(material_tag, units, etamin, etamax)] over
    the dictionary [md]: the value returned ([None] when the type of the
    entry is not implemented) and the lines printed. *)
Definition construct_eos_for_material (md : gmap string material)
    (material_tag : string) (units : units_arg) (etamin etamax : pyval)
    : result (option eos_object) * list string :=
  match md !! material_tag with
  | None => (Raise (AssertionError ""), [])
  | Some mat_dict =>
      match units with
      | NotUnits _ => (Raise (AssertionError ""), [])
      | UnitsObject u =>
          match assert_float etamin with
          | Raise e => (Raise e, [])
          | Ok lo =>
              match assert_float etamax with
              | Raise e => (Raise e, [])
              | Ok hi =>
                  if String.eqb (eos_type mat_dict) "tillotson"
                  then (Ok (Some (mkEosObject (eos_constructor mat_dict)
                                    (materialName (eos_args mat_dict)) lo hi u)),
                        [])
                  else (Ok None,
                        ["EOS type " +:+ eos_type mat_dict +:+ " not yet implemented"
                         +:+ newline])
              end
          end
      end
  end.

(** ** Reading a pickled node list back ([precooked_gravity_collision.py]) *)

Inductive script_error : Type :=
  | IOError (path : string)
  | EOFError
  | UnpicklingError
  | KeyError (key : string)
  | TypeError
  | OverflowError
  | ListIndexError
  | ScriptAssertionError.

Inductive outcome (A : Type) : Type :=
  | Fine (a : A)
  | Failed (e : script_error).
Arguments Fine {A} a.
Arguments Failed {A} e.

Global Instance outcome_ret : MRet outcome := fun A a => Fine a.

Global Instance outcome_bind : MBind outcome := fun A B k r =>
  match r with
  | Fine a => k a
  | Failed e => Failed e
  end.




(** The items of a value of the dictionary when it is used as a sequence. *)
Inductive item : Type :=
  | IFloat (x : pyfloat)
  | ITuple (t : pyfloat * pyfloat * pyfloat)
  | IChar (c : ascii).




(** What the script keeps of a pickled node list. *)
Record precooked := mkPrecooked {
  pc_pos : list (pyfloat * pyfloat * pyfloat);
  pc_rho : list item;
  pc_m : list item;
  pc_u : list item;
  pc_nbNodes : nat
}.


(** The arrays of a node generator, which are Python lists. *)
Record generator := mkGenerator {
  gen_x : list item;
  gen_y : list item;
  gen_z : list item;
  gen_m : list item
}.

(** [l[k]] and [l[k] = v] on a Python list. *)
Definition list_get {A} (l : list A) (k : nat) : outcome A :=
  match l !! k with
  | Some a => Fine a
  | None => Failed ListIndexError
  end.

Definition list_set {A} (l : list A) (k : nat) (v : A) : outcome (list A) :=
  if decide (k < length l) then Fine (<[k := v]> l) else Failed ListIndexError.

(** [assert generator.localNumNodes() == nbNodes], where the number of
    local nodes of a generator is the length of its [x]. *)
Definition assert_num_nodes (gen : generator) (nbNodes : nat) : outcome unit :=
  if decide (length (gen_x gen) = nbNodes) then Fine tt else Failed ScriptAssertionError.

(** The loop "substitute values from pre-cooked data" over the indices [ks]. *)
Fixpoint substitute (pc : precooked) (ks : list nat) (gen : generator) : outcome generator :=
  match ks with
  | [] => Fine gen
  | k :: ks' =>
      p ← list_get (pc_pos pc) k;
      gx ← list_set (gen_x gen) k (IFloat p.1.1);
      p ← list_get (pc_pos pc) k;
      gy ← list_set (gen_y gen) k (IFloat p.1.2);
      p ← list_get (pc_pos pc) k;
      gz ← list_set (gen_z gen) k (IFloat p.2);
      m ← list_get (pc_m pc) k;
      gm ← list_set (gen_m gen) k m;
      substitute pc ks' (mkGenerator gx gy gz gm)
  end.

(** Lines 197 and 206-211 of the script, for one node list. *)
Definition fill_generator (pc : precooked) (gen : generator) : outcome generator :=
  assert_num_nodes gen (pc_nbNodes pc);;
  substitute pc (seq 0 (pc_nbNodes pc)) gen.

(** ** Periodic output ([earthTest3d.py]) *)




Section Output.
Context `{SpheralMath}.


End Output.

(** * Definitions used by the statements *)

(** The position in the global sequence at which the records of a rank begin. *)
Definition offset (group : nat -> NodeList) (rank : nat) : nat :=
  sum_list (contributions rank (fun r => length (localFields (group r)))).

(** A concrete group used to exercise the statements: two ranks, the first
    holding two internal nodes and a ghost node, the second three internal
    nodes. *)
Definition f_one : pyfloat := FFin false 1 0.
Definition f_two : pyfloat := FFin false 1 1.
Definition f_half : pyfloat := FFin false 1 (-1).

Definition demo_vec (x : pyfloat) : Vector3d := mkVector3d x f_one f_two.
Definition demo_tensor (x : pyfloat) : SymTensor3d :=
  mkSymTensor3d x (FZero false) (FZero false) f_one (FZero false) f_two.

Definition demo_eos : EquationOfState :=
  mkEOS (fun rho u => rho) (fun rho u => u).

Definition demo_nl (n : nat) (values : list pyfloat) : NodeList :=
  mkNodeList SolidNodeList3d "ice" "SolidNodeList" n
    (demo_vec <$> values) (demo_vec <$> values) values values values
    (demo_tensor <$> values) demo_eos.

Definition demo_group (rank : nat) : NodeList :=
  match rank with
  | 0 => demo_nl 2 [f_one; f_two; f_half]
  | _ => demo_nl 3 [f_half; f_one; f_two]
  end.

(** Stand-ins for the numeric services: diagonal tensors only. *)
Definition demo_math : SpheralMath := {|
  inverse_eigenValues := fun t => mkVector3d (t_xx t) (t_yy t) (t_zz t);
  minElement := vec_x;
  maxElement := vec_z
|}.

(** Every [internalValues()] sequence of the node list has one entry per
    internal node. *)
Definition internal_lengths_ok (nl : NodeList) : Prop :=
  length (internalValues nl (positions nl)) = numInternalNodes nl /\
  length (internalValues nl (velocity nl)) = numInternalNodes nl /\
  length (internalValues nl (mass nl)) = numInternalNodes nl /\
  length (internalValues nl (massDensity nl)) = numInternalNodes nl /\
  length (internalValues nl (specificThermalEnergy nl)) = numInternalNodes nl /\
  length (internalValues nl (Hfield nl)) = numInternalNodes nl.

(** The dictionary whose field sequences hold one entry per tuple of [gf],
    in the order of [gf]. *)
Definition dict_of `{SpheralMath} (name : string) (gf : list NodeTuple)
    : gmap string dictval :=
  <["name" := DStr name]> (
  <["x" := DVecs ((fun t => xyz (tup_x t)) <$> gf)]> (
  <["v" := DVecs ((fun t => xyz (tup_v t)) <$> gf)]> (
  <["m" := DScalars (tup_m <$> gf)]> (
  <["rho" := DScalars (tup_rho <$> gf)]> (
  <["p" := DScalars (tup_p <$> gf)]> (
  <["h" := DVecs ((fun t => xyz (inverse_eigenValues (tup_H t))) <$> gf)]> (
  <["T" := DScalars (tup_T <$> gf)]> (
  <["U" := DScalars (tup_u <$> gf)]> ∅)))))))).

Definition dict_keys : gset string :=
  {["name"; "x"; "v"; "m"; "rho"; "p"; "h"; "T"; "U"]}.

(** The streams after an optional message. *)
Definition io_said (quiet : bool) (s : string) (io : IO) : IO :=
  if quiet then io else mkIO (files io) (stdout io ++ [s]) (stderr io).

(** The files and streams after the step "optionally, pickle the dict". *)
Definition io_pickled (rank : nat) (filename : pyval) (d : gmap string dictval)
    (io : IO) : IO :=
  if bool_decide (rank = 0) then
    match filename with
    | PNone => io
    | PStr name => mkIO (<[name := [CPickle d]]> (files io)) (stdout io) (stderr io)
    | _ => mkIO (files io) (stdout io)
             (stderr io ++ [not_pickled_message filename +:+ newline])
    end
  else io.

Definition pickling_message (nl : NodeList) : string :=
  "Pickling " +:+ nl_label nl +:+ " " +:+ nl_name nl +:+ "........".

Definition empty_io : IO := mkIO ∅ [] [].


(** ** The order of file operations in a run

    Between two collective calls the ranks run freely. The file operations
    of a run are compared with those of the schedule that lets the ranks run
    one after the other, in rank order, up to their next collective call. *)

Definition is_file_op (o : op) : bool :=
  match o with
  | Print _ => false
  | _ => true
  end.

(** The events of a trace that act on files. *)
Fixpoint file_events (tr : list event) : list event :=
  match tr with
  | [] => []
  | ELoc r o :: tr' =>
      if is_file_op o then ELoc r o :: file_events tr' else file_events tr'
  | _ :: tr' => file_events tr'
  end.

(** The file operations of a rank before its next collective call. *)
Fixpoint seg_file (rank : nat) (p : list action) : list event :=
  match p with
  | Loc o :: p' =>
      if is_file_op o then ELoc rank o :: seg_file rank p' else seg_file rank p'
  | _ => []
  end.

(** What is left of a rank after its next collective call. *)
Fixpoint after_coll (p : list action) : list action :=
  match p with
  | Loc _ :: p' => after_coll p'
  | Coll _ :: p' => p'
  | _ => []
  end.

(** The number of collective calls a rank can still reach. *)
Fixpoint colls (p : list action) : nat :=
  match p with
  | Loc _ :: p' => colls p'
  | Coll _ :: p' => S (colls p')
  | _ => 0
  end.

Definition segs (ps : list (list action)) : list event :=
  concat (imap seg_file ps).

Fixpoint canon (fuel : nat) (ps : list (list action)) : list event :=
  match fuel with
  | O => segs ps
  | S f => segs ps ++ canon f (after_coll <$> ps)
  end.

(** The file operations of the rank-by-rank schedule. *)
Definition canonical (ps : list (list action)) : list event :=
  canon (max_list (colls <$> ps)) ps.

(** At most one rank acts on files before the next collective call. *)
Definition one_writer (ps : list (list action)) : Prop :=
  forall i j p q, ps !! i = Some p -> ps !! j = Some q ->
    seg_file i p <> [] -> seg_file j q <> [] -> i = j.

(** The same between any two successive collective calls. *)
Definition single_writer (ps : list (list action)) : Prop :=
  forall n, one_writer (Nat.iter n (fmap after_coll) ps).

(** A piece of a program made of local operations only. *)
Definition locals (p : list action) : Prop :=
  Forall (fun a => exists o, a = Loc o) p.

Section FlattenStatements.
Context `{SpheralMath}.

(** The lines of the internal nodes of a rank, in the order of the nodes. *)
Definition lines_of (nl : NodeList) (nl_id : Z) : list string :=
  omap (node_line nl nl_id) (seq 0 (numInternalNodes nl)).

(** The file operations of a rank in its turn. *)
Definition turn_ops (path : string) (nl : NodeList) (nl_id : Z) : list op :=
  OpenA path :: (FWrite path <$> lines_of nl nl_id) ++ [FClose path].

Definition turn_events (rank : nat) (path : string) (nl : NodeList) (nl_id : Z)
    : list event :=
  ELoc rank <$> turn_ops path nl nl_id.

Definition header_events (path : string) (n : nat) : list event :=
  [ELoc 0 (OpenW path); ELoc 0 (FWrite path (header_text n)); ELoc 0 (FClose path)].

(** The turns of all ranks, in ascending rank order. *)
Definition data_events (procs : nat) (group : nat -> NodeList) (path : string)
    (nl_id : Z) : list event :=
  concat ((fun r => turn_events r path (group r) nl_id) <$> seq 0 procs).

End FlattenStatements.

Section FlattenRuns.
Context `{SpheralMath}.

(** The file operations of a whole call of [pflatten_node_list], rank by
    rank. *)
Definition flatten_events (procs : nat) (group : nat -> NodeList) (path : string)
    (hdr : bool) (nl_id : Z) : list event :=
  (if hdr then header_events path (nbGlobalNodes procs group) else []) ++
  data_events procs group path nl_id.

Definition flattening_message (nl : NodeList) : string :=
  "Flattening " +:+ nl_label nl +:+ " " +:+ nl_name nl +:+ "........".
End FlattenRuns.


(** ** Collective calls of a program and of a run *)

(** The collective calls of a program, in order. *)
Fixpoint coll_skel (p : list action) : list collective :=
  match p with
  | [] => []
  | Coll c :: p' => c :: coll_skel p'
  | _ :: p' => coll_skel p'
  end.

Definition no_throw (p : list action) : Prop :=
  Forall (fun a => match a with Throw _ => False | _ => True end) p.

(** The collective calls completed in a run, in order. *)
Fixpoint syncs (tr : list event) : list collective :=
  match tr with
  | [] => []
  | ESync c :: tr' => c :: syncs tr'
  | _ :: tr' => syncs tr'
  end.

(** Every rank makes the collective calls [sk] and raises nothing. *)
Definition aligned (ps : list (list action)) (sk : list collective) : Prop :=
  Forall (fun p => no_throw p /\ coll_skel p = sk) ps.



(** The collective calls of [pflatten_node_list]: the reduction for the
    header, then one barrier per rank of the group. *)
Definition flatten_skel (procs : nat) (hdr : bool) : list collective :=
  (if hdr then [CAllreduce] else []) ++ replicate procs CBarrier.

Section FlattenListStatements.
Context `{SpheralMath}.






End FlattenListStatements.

(** The demo group writing its table with a header, quietly. *)
Definition demo_table_run : list (list action) :=
  pflatten_group (H := demo_math) 2 demo_group (PStr "nodes.txt") (PBool true)
    (PInt 0) (PBool true).

Definition demo_line : string :=
  Eval vm_compute in default "" (lines_of (H := demo_math) (demo_group 0) 0 !! 0).

(** A run of the demo group up to the point where rank 0, having written
    the header, has opened the file again for its own lines. *)
Definition demo_prefix : list event :=
  [ESync CAllreduce; ELoc 0 (OpenW "nodes.txt");
   ELoc 0 (FWrite "nodes.txt" (header_text 5)); ELoc 0 (FClose "nodes.txt");
   ELoc 0 (OpenA "nodes.txt")].

(** ** Reading a formatted number *)

Definition is_digit (c : ascii) : bool :=
  match Ascii.is_nat c with
  | Some _ => true
  | None => false
  end.

Fixpoint all_digits (s : string) : bool :=
  match s with
  | EmptyString => true
  | String c s' => is_digit c && all_digits s'
  end.

(** The digits of the mantissa: those before the [e]. *)
Fixpoint significant_digits (s : string) : nat :=
  match s with
  | EmptyString => 0
  | String c s' =>
      if Ascii.eqb c "e" then 0
      else (if is_digit c then 1 else 0) + significant_digits s'
  end.

(** The format as the specification words it: twelve columns, five
    significant digits. *)
Definition claimed_format (s : string) : Prop :=
  String.length s = 12 /\ significant_digits s = 5.

(** 1e100, the binary64 value nearest to it. *)
Definition f_1e100 : pyfloat := FFin false 5147557589468029 280.

(** * Further statements *)

(** [d[key][k]] for a key that holds 3-tuples, and for one that holds
    scalars. *)
Definition vec_entry (d : gmap string dictval) (key : string) (k : nat)
    : option (pyfloat * pyfloat * pyfloat) :=
  match d !! key with
  | Some (DVecs l) => l !! k
  | _ => None
  end.

Definition scalar_entry (d : gmap string dictval) (key : string) (k : nat)
    : option pyfloat :=
  match d !! key with
  | Some (DScalars l) => l !! k
  | _ => None
  end.

(** A group in which rank 0 claims two internal nodes and holds the fields
    of one only. *)
Definition short_group (rank : nat) : NodeList := demo_nl 2 [f_one].

(** The generator arrays that the substitution loop leaves when it runs to
    its end: the coordinates and masses of the first [pc_nbNodes] records. *)
Definition substituted (pc : precooked) : generator :=
  let pos := take (pc_nbNodes pc) (pc_pos pc) in
  mkGenerator ((fun p => IFloat p.1.1) <$> pos) ((fun p => IFloat p.1.2) <$> pos)
    ((fun p => IFloat p.2) <$> pos) (take (pc_nbNodes pc) (pc_m pc)).

(** All four arrays of the generator have [n] entries. *)
Definition generator_size (gen : generator) (n : nat) : Prop :=
  length (gen_x gen) = n /\ length (gen_y gen) = n /\
  length (gen_z gen) = n /\ length (gen_m gen) = n.





Definition demo_precooked : precooked :=
  mkPrecooked [(f_one, f_two, f_half); (f_half, f_one, f_two)]
    [IFloat f_one; IFloat f_two] [IFloat f_two; IFloat f_half; IFloat f_one]
    [IFloat f_one; IFloat f_one] 2.

Definition small_generator : generator :=
  let zeros := replicate 2 (IFloat (FZero false)) in
  mkGenerator zeros zeros zeros zeros.

(** The material names of the two tags of [material_dictionary]. *)
Definition shipped_name (tag : string) : option string :=
  if String.eqb tag "dirtyice" then Some "30% silicate ice"
  else if String.eqb tag "h2oice" then Some "pure ice"
  else None.

Definition mks : PhysicalConstants := mkPhysicalConstants f_one f_one f_one.

(** ** What a run does to the files *)





(** Every rank is about to raise [e] or has raised it. *)
Definition rejected (e : pyexn) (ps : list (list action)) : Prop :=
  Forall (fun p => p = [] \/ p = [Throw e]) ps.


(** A file that exists before the calls. *)
Definition other_files : gmap string (list chunk) := {[ "run.log" := [CText "start"] ]}.

(** A call with no file name, and the assertion that it fails. *)
Definition unnamed_call : list (list action) :=
  pflatten_group (H := demo_math) 2 demo_group PNone (PBool true) (PInt 0) (PBool true).

Definition unnamed_list_call : list (list action) :=
  pflatten_list_group (H := demo_math) 2 [demo_group; demo_group] PNone (PBool true)
    (PBool true).

Definition not_a_string : pyexn := AssertionError "argument 2 must be a simple string".


(** ** The table and the dictionary *)

Section Records.
Context `{SpheralMath}.

(** The line of the table that the formats of [pflatten_node_list] make of
    one collected record. *)
Definition record_line (nl_id : Z) (t : NodeTuple) : string :=
  format_2d nl_id +:+ "  " +:+
  format_e (vec_x (tup_x t)) +:+ "  " +:+ format_e (vec_y (tup_x t)) +:+ "  " +:+
  format_e (vec_z (tup_x t)) +:+ "  " +:+
  format_e (vec_x (tup_v t)) +:+ "  " +:+ format_e (vec_y (tup_v t)) +:+ "  " +:+
  format_e (vec_z (tup_v t)) +:+ "  " +:+
  format_e (tup_m t) +:+ "  " +:+
  format_e (tup_rho t) +:+ "  " +:+
  format_e (tup_p t) +:+ "  " +:+
  format_e (tup_T t) +:+ "  " +:+
  format_e (tup_u t) +:+ "  " +:+
  format_e (minElement (inverse_eigenValues (tup_H t))) +:+ "  " +:+
  format_e (maxElement (inverse_eigenValues (tup_H t))) +:+ "  " +:+
  newline.
End Records.

(** ** Reading the table back *)

(** Python's white space: tab, line feed, vertical tab, form feed, carriage
    return and space. *)
Definition is_space (c : ascii) : bool :=
  let n := nat_of_ascii c in
  (Nat.leb 9 n && Nat.leb n 13) || Nat.eqb n 32.

Fixpoint no_space (s : string) : bool :=
  match s with
  | EmptyString => true
  | String c s' => negb (is_space c) && no_space s'
  end.

(** [s.split()]: the maximal runs of characters that are not white space. *)
Fixpoint tokens (s : string) : list string :=
  match s with
  | EmptyString => []
  | String c s' =>
      if is_space c then tokens s'
      else match s' with
           | EmptyString => [String c EmptyString]
           | String c' _ =>
               if is_space c' then String c EmptyString :: tokens s'
               else match tokens s' with
                    | t :: ts => String c t :: ts
                    | [] => [String c EmptyString]
                    end
           end
  end.

Definition is_newline (c : ascii) : bool := Nat.eqb (nat_of_ascii c) 10.

(** The number of line feeds of a text. *)
Fixpoint count_newlines (s : string) : nat :=
  match s with
  | EmptyString => 0
  | String c s' => (if is_newline c then 1 else 0) + count_newlines s'
  end.

(** [s.split('\n')] *)
Fixpoint text_lines (s : string) : list string :=
  match s with
  | EmptyString => [EmptyString]
  | String c s' =>
      if is_newline c then EmptyString :: text_lines s'
      else match text_lines s' with
           | l :: ls => String c l :: ls
           | [] => [String c EmptyString]
           end
  end.

(** The lines of [a ++ b] from those of [a] and those of [b]. *)
Fixpoint join_lines (la lb : list string) : list string :=
  match la with
  | [] => lb
  | [l] =>
      match lb with
      | [] => [l]
      | m :: lb' => (l +:+ m) :: lb'
      end
  | l :: la' => l :: join_lines la' lb
  end.

(** A line that a reader of tables skips: empty, or a comment. *)
Definition comment_or_blank (l : string) : bool :=
  match l with
  | EmptyString => true
  | String c _ => Ascii.eqb c "#"
  end.

(** The values of a record in the order of the columns. *)
Definition record_values `{SpheralMath} (t : NodeTuple) : list pyfloat :=
  [vec_x (tup_x t); vec_y (tup_x t); vec_z (tup_x t);
   vec_x (tup_v t); vec_y (tup_v t); vec_z (tup_v t);
   tup_m t; tup_rho t; tup_p t; tup_T t; tup_u t;
   minElement (inverse_eigenValues (tup_H t));
   maxElement (inverse_eigenValues (tup_H t))].

Definition demo_record : NodeTuple :=
  mkNodeTuple (demo_vec f_one) (demo_vec f_one) f_one f_one f_one f_one f_one
    (demo_tensor f_one).

(** ** File names of the periodic output *)




(** * Properties *)

(** ** Formatting *)

(** A few values as Python prints them. *)
Example format_e_one : format_e (FFin false 1 0) = "+1.00000e+00".
Proof. vm_compute. reflexivity. Qed.

Example format_e_minus_2_5 : format_e (FFin true 5 (-1)) = "-2.50000e+00".
Proof. vm_compute. reflexivity. Qed.

Example format_e_tenth : format_e (FFin false 3602879701896397 (-55)) = "+1.00000e-01".
Proof. vm_compute. reflexivity. Qed.

Example format_e_tie_even : format_e (FFin false 246913 (-1)) = "+1.23456e+05".
Proof. vm_compute. reflexivity. Qed.

Example format_e_carry : format_e (FFin false 9999999 0) = "+1.00000e+07".
Proof. vm_compute. reflexivity. Qed.

Example format_e_inf : format_e (FInf false) = "        +inf".
Proof. vm_compute. reflexivity. Qed.

Example format_2d_examples :
  format_2d 0 = " 0" /\ format_2d 7 = " 7" /\ format_2d 12 = "12" /\
  format_2d (-3) = "-3" /\ format_2d 123 = "123".
Proof. vm_compute. repeat split. Qed.


(** ** The reductions *)

Lemma foldl_app_concat {A} (acc : list A) (ls : list (list A)) :
  foldl (@app A) acc ls = acc ++ concat ls.
Proof.
  revert acc. induction ls as [|l ls IH]; intros acc; simpl.
  - by rewrite app_nil_r.
  - by rewrite IH, app_assoc.
Qed.

Lemma allreduce_SUM_list_concat {A} (ls : list (list A)) :
  allreduce_SUM_list ls = concat ls.
Proof. unfold allreduce_SUM_list, allreduce_SUM. by rewrite foldl_app_concat. Qed.

Lemma foldl_add_sum (acc : nat) (ns : list nat) :
  foldl Nat.add acc ns = acc + sum_list ns.
Proof.
  revert acc. induction ns as [|n ns IH]; intros acc; simpl.
  - lia.
  - rewrite IH. lia.
Qed.

Lemma allreduce_SUM_nat_sum (ns : list nat) : allreduce_SUM_nat ns = sum_list ns.
Proof. unfold allreduce_SUM_nat, allreduce_SUM. by rewrite foldl_add_sum. Qed.

Lemma length_concat_sum {A} (ls : list (list A)) :
  length (concat ls) = sum_list (length <$> ls).
Proof. induction ls as [|l ls IH]; simpl; [done|]. by rewrite length_app, IH. Qed.

Lemma contributions_fmap {A B} (f : A -> B) procs (local : nat -> A) :
  f <$> contributions procs local = contributions procs (fun r => f (local r)).
Proof. unfold contributions. by rewrite <-list_fmap_compose. Qed.

Lemma contributions_S {A} procs (local : nat -> A) :
  contributions (S procs) local = contributions procs local ++ [local procs].
Proof. unfold contributions. by rewrite seq_S, fmap_app. Qed.

Lemma contributions_lookup {A} procs (local : nat -> A) r :
  r < procs -> contributions procs local !! r = Some (local r).
Proof.
  intros Hr. unfold contributions. rewrite list_lookup_fmap.
  by rewrite lookup_seq_lt.
Qed.

Lemma lookup_concat_contributions {A} procs (local : nat -> list A) r i :
  r < procs ->
  i < length (local r) ->
  concat (contributions procs local)
    !! (sum_list (contributions r (fun q => length (local q))) + i) = local r !! i.
Proof.
  induction procs as [|n IH]; intros Hr Hi; [lia|].
  rewrite contributions_S, concat_app. simpl. rewrite app_nil_r.
  destruct (decide (r = n)) as [->|Hne].
  - rewrite lookup_app_r.
    + f_equal. rewrite length_concat_sum, contributions_fmap. lia.
    + rewrite length_concat_sum, contributions_fmap. lia.
  - rewrite lookup_app_l.
    + apply IH; lia.
    + assert (Hlt : r < n) by lia.
      apply lookup_lt_is_Some. rewrite IH by lia.
      by apply lookup_lt_is_Some.
Qed.

Lemma globalFields_concat procs group :
  globalFields procs group = concat (contributions procs (fun r => localFields (group r))).
Proof. unfold globalFields. by rewrite allreduce_SUM_list_concat. Qed.

Lemma length_globalFields_sum procs group :
  length (globalFields procs group)
  = sum_list (contributions procs (fun r => length (localFields (group r)))).
Proof. by rewrite globalFields_concat, length_concat_sum, contributions_fmap. Qed.

(** C1: the single reduction of the zipped per-node tuples yields the local
    sequences of the ranks one after the other in ascending rank order. Its
    length is the sum of the local lengths, and the [i]-th record of rank
    [r] sits at position [offset r + i]: nothing is dropped, repeated or
    moved. *)
Theorem aggregate_is_rank_ordered_concat (procs : nat) (group : nat -> NodeList) :
  globalFields procs group
    = concat (contributions procs (fun r => localFields (group r))) /\
  length (globalFields procs group)
    = sum_list (contributions procs (fun r => length (localFields (group r)))) /\
  forall r i, r < procs -> i < length (localFields (group r)) ->
    globalFields procs group !! (offset group r + i) = localFields (group r) !! i.
Proof.
  split; [apply globalFields_concat|]. split; [apply length_globalFields_sum|].
  intros r i Hr Hi. rewrite globalFields_concat. unfold offset.
  by apply (lookup_concat_contributions procs (fun r => localFields (group r))).
Qed.

Lemma aggregate_is_rank_ordered_concat_witness :
  length (globalFields 2 demo_group) = 5 /\
  globalFields 2 demo_group !! 3 = localFields (demo_group 1) !! 1.
Proof.
  destruct (aggregate_is_rank_ordered_concat 2 demo_group) as (_ & Hlen & Hpos).
  split.
  - rewrite Hlen. reflexivity.
  - apply (Hpos 1 1); vm_compute; lia.
Defined.

(** ** Bounds of the unpacking loop *)

Lemma length_internalValues_ge {A} nl (field : list A) :
  length (internalValues nl field) = numInternalNodes nl ->
  numInternalNodes nl <= length field.
Proof. unfold internalValues. rewrite length_take. lia. Qed.

Lemma length_zip8 xs vs ms rs us ps Ts Hs :
  length (zip8 xs vs ms rs us ps Ts Hs)
  = length xs `min` (length vs `min` (length ms `min` (length rs `min`
      (length us `min` (length ps `min` (length Ts `min` length Hs)))))).
Proof. unfold zip8. by rewrite length_fmap, !length_zip_with. Qed.

Lemma length_localFields nl :
  internal_lengths_ok nl -> length (localFields nl) = numInternalNodes nl.
Proof.
  intros (Hx & Hv & Hm & Hr & Hu & HH).
  pose proof (length_internalValues_ge _ _ Hr).
  pose proof (length_internalValues_ge _ _ Hu).
  unfold localFields. rewrite length_zip8.
  unfold setPressure, setTemperature. rewrite !length_zip_with. lia.
Qed.

Lemma length_globalFields procs group :
  (forall r, r < procs -> internal_lengths_ok (group r)) ->
  length (globalFields procs group) = nbGlobalNodes procs group.
Proof.
  intros Hok. rewrite length_globalFields_sum.
  unfold nbGlobalNodes. rewrite allreduce_SUM_nat_sum. f_equal.
  unfold contributions. apply list_fmap_ext. intros i r Hi.
  apply lookup_seq in Hi as [-> Hlt]. apply length_localFields, Hok. lia.
Qed.

(** ** The dictionary built by [spickle_node_list] *)

Section CollectFacts.
Context `{SpheralMath}.

Lemma empty_dict_of name : empty_dict name = dict_of name [].
Proof. reflexivity. Qed.

Lemma fill_node_dict_of name gf t :
  fill_node t (dict_of name gf) = dict_of name (gf ++ [t]).
Proof.
  unfold fill_node, dict_of, append_vec, append_scalar.
  rewrite !fmap_app. simpl.
  repeat (rewrite alter_insert_eq
          || (rewrite alter_insert_ne by (intros ?; discriminate))).
  reflexivity.
Qed.
End CollectFacts.

Section CollectRun.
Context `{SpheralMath}.

Lemma fill_loop_take name gf n i :
  i + n <= length gf ->
  fill_loop gf (seq i n) (dict_of name (take i gf))
  = Ok (dict_of name (take (i + n) gf)).
Proof.
  revert i. induction n as [|n IH]; intros i Hle; simpl.
  - by rewrite Nat.add_0_r.
  - destruct (lookup_lt_is_Some_2 gf i) as [t Ht]; [lia|].
    rewrite Ht, fill_node_dict_of, <-(take_S_r _ _ _ Ht), IH by lia.
    do 3 f_equal. lia.
Qed.

Lemma fill_loop_all name gf :
  fill_loop gf (seq 0 (length gf)) (empty_dict name) = Ok (dict_of name gf).
Proof.
  rewrite empty_dict_of.
  pose proof (fill_loop_take name gf (length gf) 0) as Hall.
  rewrite take_0 in Hall. rewrite Hall by lia.
  simpl. by rewrite take_ge.
Qed.

(** The call, step by step, once [silent] is known to be a boolean. *)
Lemma spickle_node_list_unfold procs group rank filename quiet io :
  spickle_node_list procs group rank filename (PBool quiet) io
  = let nl := group rank in
    let io1 := io_said quiet (pickling_message nl) io in
    match fill_loop (globalFields procs group)
            (seq 0 (nbGlobalNodes procs group)) (empty_dict (nl_name nl)) with
    | Ok d => (Ok d, io_said quiet ("Done." +:+ newline) (io_pickled rank filename d io1))
    | Raise e => (Raise e, io1)
    end.
Proof.
  unfold spickle_node_list, io_said, io_pickled, pickling_message.
  unfold mbind, M_bind, mret, M_ret, lift, when, stdout_write, stderr_write,
    pickle_dump; simpl.
  destruct quiet; simpl;
    destruct (fill_loop _ _ _) as [d|e]; simpl; try reflexivity;
    destruct (bool_decide (rank = 0)); simpl; try reflexivity;
    destruct filename; reflexivity.
Qed.

Lemma spickle_node_list_ok procs group rank filename quiet io :
  (forall r, r < procs -> internal_lengths_ok (group r)) ->
  spickle_node_list procs group rank filename (PBool quiet) io
  = (Ok (dict_of (nl_name (group rank)) (globalFields procs group)),
     io_said quiet ("Done." +:+ newline)
       (io_pickled rank filename
          (dict_of (nl_name (group rank)) (globalFields procs group))
          (io_said quiet (pickling_message (group rank)) io))).
Proof.
  intros Hok. rewrite spickle_node_list_unfold. simpl.
  rewrite <-(length_globalFields procs group Hok).
  by rewrite fill_loop_all.
Qed.
End CollectRun.

Lemma demo_group_ok r : internal_lengths_ok (demo_group r).
Proof. destruct r as [|r]; vm_compute; repeat split. Qed.

Section CollectClaims.
Context `{SpheralMath}.

Lemma dom_dict_of name gf : dom (dict_of name gf) = dict_keys.
Proof.
  unfold dict_of, dict_keys. rewrite !dom_insert_L, dom_empty_L. set_solver.
Qed.

(** C9: when every [internalValues()] sequence of every rank has as many
    entries as the rank has internal nodes, the separately reduced node
    count is the length of the reduced sequence, the loop only uses
    indices below it, every index it uses is in range, and the loop ends
    without an [IndexError]. *)
Theorem unpacking_loop_in_bounds (procs : nat) (group : nat -> NodeList) :
  (forall r, r < procs -> internal_lengths_ok (group r)) ->
  nbGlobalNodes procs group = length (globalFields procs group) /\
  (forall k, k ∈ seq 0 (nbGlobalNodes procs group) ->
     k < nbGlobalNodes procs group /\
     is_Some (globalFields procs group !! k)) /\
  (forall name, exists d,
     fill_loop (globalFields procs group) (seq 0 (nbGlobalNodes procs group))
       (empty_dict name) = Ok d).
Proof.
  intros Hok. pose proof (length_globalFields procs group Hok) as Hlen.
  split; [done|]. split.
  - intros k Hk. apply elem_of_seq in Hk. split; [lia|].
    apply lookup_lt_is_Some. lia.
  - intros name. rewrite <-Hlen, fill_loop_all. eauto.
Qed.

(** C4: the call returns a mapping with exactly the keys [name], [x],
    [v], [m], [rho], [p], [h], [T], [U]; [x], [v] and [h] hold 3-tuples and
    the others scalars, each one entry per node of the reduced sequence
    and in its order, and there are as many as the global node count. *)
Theorem collect_returns_full_dict (procs : nat) (group : nat -> NodeList)
    (rank : nat) (filename : pyval) (quiet : bool) (io : IO) :
  (forall r, r < procs -> internal_lengths_ok (group r)) ->
  let gf := globalFields procs group in
  exists d io',
    spickle_node_list procs group rank filename (PBool quiet) io = (Ok d, io') /\
    dom d = dict_keys /\
    d !! "name" = Some (DStr (nl_name (group rank))) /\
    d !! "x" = Some (DVecs ((fun t => xyz (tup_x t)) <$> gf)) /\
    d !! "v" = Some (DVecs ((fun t => xyz (tup_v t)) <$> gf)) /\
    d !! "h" = Some (DVecs ((fun t => xyz (inverse_eigenValues (tup_H t))) <$> gf)) /\
    d !! "m" = Some (DScalars (tup_m <$> gf)) /\
    d !! "rho" = Some (DScalars (tup_rho <$> gf)) /\
    d !! "p" = Some (DScalars (tup_p <$> gf)) /\
    d !! "T" = Some (DScalars (tup_T <$> gf)) /\
    d !! "U" = Some (DScalars (tup_u <$> gf)) /\
    length gf = nbGlobalNodes procs group.
Proof.
  intros Hok gf. eexists _, _. split; [by apply spickle_node_list_ok|].
  split; [apply dom_dict_of|].
  repeat split; try reflexivity.
  by apply length_globalFields.
Qed.


(** C8: the value returned does not depend on the rank (given that the
    ranks agree on the name of the node list); only rank 0 touches the
    files; and with well-formed fields the value is the fully populated
    dictionary on every rank. *)
Theorem every_rank_returns_same_dict (procs : nat) (group : nat -> NodeList)
    (r1 r2 : nat) (filename silent : pyval) (io1 io2 : IO) :
  nl_name (group r1) = nl_name (group r2) ->
  (spickle_node_list procs group r1 filename silent io1).1
    = (spickle_node_list procs group r2 filename silent io2).1 /\
  (r1 <> 0 -> files (spickle_node_list procs group r1 filename silent io1).2 = files io1) /\
  ((forall r, r < procs -> internal_lengths_ok (group r)) ->
   forall quiet, silent = PBool quiet ->
     (spickle_node_list procs group r1 filename silent io1).1
     = Ok (dict_of (nl_name (group r1)) (globalFields procs group)) /\
     length (globalFields procs group) = nbGlobalNodes procs group).
Proof.
  intros Hname. split; [|split].
  - destruct silent; try reflexivity.
    rewrite !spickle_node_list_unfold. simpl. rewrite Hname.
    by destruct (fill_loop _ _ _).
  - intros Hr. destruct silent; try reflexivity.
    rewrite spickle_node_list_unfold. simpl.
    destruct (fill_loop _ _ _); [|by destruct b].
    unfold io_pickled. rewrite bool_decide_eq_false_2 by done.
    by destruct b.
  - intros Hok quiet ->. rewrite spickle_node_list_ok by done.
    split; [done|]. by apply length_globalFields.
Qed.
End CollectClaims.

Lemma unpacking_loop_in_bounds_witness :
  nbGlobalNodes 2 demo_group = length (globalFields 2 demo_group).
Proof.
  apply (unpacking_loop_in_bounds (H := demo_math) 2 demo_group).
  intros r _. apply demo_group_ok.
Defined.

Lemma collect_returns_full_dict_witness :
  exists d io',
    spickle_node_list (H := demo_math) 2 demo_group 1 PNone (PBool true) empty_io
      = (Ok d, io') /\
    d !! "m" = Some (DScalars [f_one; f_two; f_half; f_one; f_two]).
Proof.
  destruct (collect_returns_full_dict (H := demo_math) 2 demo_group 1 PNone true empty_io)
    as (d & io' & Hrun & _ & _ & _ & _ & _ & Hm & _).
  - intros r _. apply demo_group_ok.
  - exists d, io'. split; [exact Hrun|]. rewrite Hm. reflexivity.
Defined.



Lemma every_rank_returns_same_dict_witness :
  (spickle_node_list (H := demo_math) 2 demo_group 0 (PStr "out.pkl") (PBool true) empty_io).1
  = (spickle_node_list (H := demo_math) 2 demo_group 1 (PStr "out.pkl") (PBool true) empty_io).1.
Proof.
  apply (every_rank_returns_same_dict (H := demo_math) 2 demo_group 0 1). reflexivity.
Defined.

(** ** Runs of a group: the file operations do not depend on the schedule *)



Lemma file_events_app tr1 tr2 :
  file_events (tr1 ++ tr2) = file_events tr1 ++ file_events tr2.
Proof.
  induction tr1 as [|ev tr1 IH]; [done|].
  destruct ev as [r o| |]; simpl; try done.
  destruct (is_file_op o); simpl; by rewrite IH.
Qed.

Lemma concat_imap_nil {A B} (f : nat -> A -> list B) (l : list A) :
  (forall j x, l !! j = Some x -> f j x = []) -> concat (imap f l) = [].
Proof.
  revert f. induction l as [|x l IH]; intros f Hf; [done|]. simpl.
  rewrite (Hf 0 x) by done. simpl. apply IH. intros j y Hy. by apply (Hf (S j)).
Qed.

(** The operations of the next segment, split around rank [r]. *)
Lemma segs_split ps r p :
  ps !! r = Some p ->
  exists before after, forall p',
    segs (<[r := p']> ps) = before ++ seg_file r p' ++ after /\
    (one_writer ps -> seg_file r p <> [] -> before = [] /\ after = []).
Proof.
  intros Hr.
  exists (concat (imap seg_file (take r ps))),
         (concat (imap (fun n => seg_file (r + S n)) (drop (S r) ps))).
  intros p'. assert (Hlen : r < length ps) by (by eapply lookup_lt_Some).
  split.
  - unfold segs. rewrite insert_take_drop by done.
    rewrite imap_app, concat_app. simpl.
    rewrite length_take, Nat.min_l, Nat.add_0_r by lia.
    do 2 f_equal; try done.
  - intros Hone Hne. split.
    + apply concat_imap_nil. intros j q Hq.
      apply lookup_take_Some in Hq as [Hq Hj].
      destruct (seg_file j q) eqn:Hs; [done|].
      assert (j = r); [|lia].
      eapply (Hone j r q p); try done. by rewrite Hs.
    + apply concat_imap_nil. intros j q Hq. rewrite lookup_drop in Hq.
      destruct (seg_file (r + S j) q) eqn:Hs; [done|].
      assert (S r + j = r); [|lia].
      eapply (Hone (S r + j) r q p); try done.
      replace (S r + j) with (r + S j) by lia. by rewrite Hs.
Qed.

Lemma segs_same (ps : list (list action)) (r : nat) p :
  ps !! r = Some p -> segs (<[r := p]> ps) = segs ps.
Proof. intros Hr. by rewrite list_insert_id. Qed.

Lemma after_coll_insert (ps : list (list action)) (r : nat) p p' :
  ps !! r = Some p -> after_coll p' = after_coll p ->
  after_coll <$> <[r := p']> ps = after_coll <$> ps.
Proof.
  intros Hr Heq. rewrite list_fmap_insert, Heq.
  apply list_insert_id. by rewrite list_lookup_fmap, Hr.
Qed.

Lemma colls_after_coll p : colls (after_coll p) <= pred (colls p).
Proof. induction p as [|[o|c|e] p IH]; simpl; lia. Qed.

Lemma after_coll_no_colls p : colls p = 0 -> after_coll p = [].
Proof. induction p as [|[o|c|e] p IH]; simpl; intros; try done; auto. Qed.

Lemma segs_nils ps : Forall (fun p => p = []) ps -> segs ps = [].
Proof.
  intros Hall. apply concat_imap_nil. intros j p Hp.
  by rewrite (proj1 (Forall_lookup _ _) Hall j p Hp).
Qed.

Lemma canon_nils f ps : Forall (fun p => p = []) ps -> canon f ps = [].
Proof.
  revert ps. induction f as [|f IH]; intros ps Hall; simpl.
  - by apply segs_nils.
  - rewrite segs_nils by done. simpl. apply IH.
    apply Forall_fmap. eapply Forall_impl; [exact Hall|]. by intros p ->.
Qed.

Lemma canon_fuel f f' ps :
  Forall (fun p => colls p <= f) ps -> f <= f' -> canon f ps = canon f' ps.
Proof.
  revert f' ps. induction f as [|f IH]; intros f' ps Hall Hle.
  - destruct f' as [|f']; [done|]. simpl.
    rewrite canon_nils; [by rewrite app_nil_r|].
    apply Forall_fmap. eapply Forall_impl; [exact Hall|].
    intros p Hp. simpl in *. apply after_coll_no_colls. lia.
  - destruct f' as [|f']; [lia|]. simpl. f_equal.
    apply IH; [|lia].
    apply Forall_fmap. eapply Forall_impl; [exact Hall|].
    intros p Hp. simpl in *. pose proof (colls_after_coll p). lia.
Qed.

Lemma colls_le_max ps : Forall (fun p => colls p <= max_list (colls <$> ps)) ps.
Proof.
  apply Forall_forall. intros p Hp. apply max_list_elem_of_le.
  apply list_elem_of_fmap. eauto.
Qed.

Lemma canonical_canon f ps :
  Forall (fun p => colls p <= f) ps -> canonical ps = canon f ps.
Proof.
  intros Hall. unfold canonical.
  rewrite (canon_fuel _ (max_list (colls <$> ps) `max` f)); [|apply colls_le_max|lia].
  symmetry. apply canon_fuel; [done|lia].
Qed.

(** The rank-by-rank schedule, one segment at a time. *)
Lemma canonical_unfold ps :
  canonical ps = segs ps ++ canonical (after_coll <$> ps).
Proof.
  rewrite (canonical_canon (S (max_list (colls <$> ps)))).
  - simpl. f_equal. symmetry. apply canonical_canon.
    apply Forall_fmap. eapply Forall_impl; [apply colls_le_max|].
    intros p Hp. simpl in *. pose proof (colls_after_coll p). lia.
  - eapply Forall_impl; [apply colls_le_max|]. intros p Hp. simpl in *. lia.
Qed.

Lemma canonical_nils ps : Forall (fun p => p = []) ps -> canonical ps = [].
Proof. intros. unfold canonical. by apply canon_nils. Qed.

Lemma single_writer_unfold ps :
  single_writer ps <-> one_writer ps /\ single_writer (after_coll <$> ps).
Proof.
  unfold single_writer. split.
  - intros Hall. split; [apply (Hall 0)|].
    intros n. rewrite <-Nat.iter_succ_r. apply Hall.
  - intros [H0 Hrest] [|n]; [done|].
    rewrite Nat.iter_succ_r. apply Hrest.
Qed.

Lemma one_writer_shrink (ps : list (list action)) (r : nat) p p' :
  ps !! r = Some p ->
  (seg_file r p' <> [] -> seg_file r p <> []) ->
  one_writer ps -> one_writer (<[r := p']> ps).
Proof.
  intros Hr Hsub Hone i j q1 q2 Hi Hj Hne1 Hne2.
  assert (forall k q, <[r := p']> ps !! k = Some q -> seg_file k q <> [] ->
            exists q', ps !! k = Some q' /\ seg_file k q' <> []) as Hback.
  { intros k q Hk Hne. destruct (decide (k = r)) as [->|Hkr].
    - rewrite list_lookup_insert_eq in Hk by (by eapply lookup_lt_Some).
      injection Hk as <-. eauto.
    - rewrite list_lookup_insert_ne in Hk by done. eauto. }
  destruct (Hback i q1 Hi Hne1) as (q1' & Hi' & Hne1').
  destruct (Hback j q2 Hj Hne2) as (q2' & Hj' & Hne2').
  by eapply Hone.
Qed.

(** A local step that keeps what follows the next collective call. *)
Lemma local_step_canonical (ps : list (list action)) (r : nat) p p' evs :
  ps !! r = Some p ->
  after_coll p' = after_coll p ->
  seg_file r p = evs ++ seg_file r p' ->
  single_writer ps ->
  canonical ps = evs ++ canonical (<[r := p']> ps) /\
  single_writer (<[r := p']> ps).
Proof.
  intros Hr Hac Hseg Hsw.
  apply single_writer_unfold in Hsw as [Hone Hrest].
  split.
  - rewrite (canonical_unfold ps), (canonical_unfold (<[r := p']> ps)).
    rewrite (after_coll_insert ps r p p') by done.
    rewrite app_assoc. f_equal.
    destruct (segs_split ps r p Hr) as (before & after & Hsplit).
    destruct (Hsplit p') as [-> _].
    destruct (Hsplit p) as [Heq Hnil]. rewrite list_insert_id in Heq by done.
    rewrite Heq, Hseg.
    destruct evs as [|ev evs]; [done|].
    destruct Hnil as [-> ->]; [done|by rewrite Hseg|].
    by rewrite <-app_assoc.
  - apply single_writer_unfold. split.
    + eapply one_writer_shrink; [done| |done].
      rewrite Hseg. intros Hne Happ. apply app_eq_nil in Happ as [_ ?]. done.
    + by rewrite (after_coll_insert ps r p p').
Qed.

Lemma step_canonical ps ev ps' :
  single_writer ps -> step ps ev ps' ->
  canonical ps = file_events [ev] ++ canonical ps' /\ single_writer ps'.
Proof.
  intros Hsw Hstep. destruct Hstep as [ps r o rest Hr|ps c Hne Hall|ps r e rest Hr].
  - apply (local_step_canonical ps r (Loc o :: rest) rest); try done.
    simpl. by destruct (is_file_op o).
  - assert (after_coll <$> ps = tail <$> ps) as Htail.
    { apply list_fmap_ext. intros i p Hp.
      pose proof (proj1 (Forall_lookup _ _) Hall i p Hp) as Hhd.
      destruct p as [|[]]; simplify_eq/=; done. }
    rewrite canonical_unfold, Htail.
    apply single_writer_unfold in Hsw as [_ Hrest]. rewrite Htail in Hrest.
    split; [|done]. simpl.
    replace (segs ps) with (@nil event); [done|].
    symmetry. apply concat_imap_nil. intros j p Hp.
    pose proof (proj1 (Forall_lookup _ _) Hall j p Hp) as Hhd.
    destruct p as [|[]]; simplify_eq/=; done.
  - by apply (local_step_canonical ps r (Throw e :: rest) []).
Qed.

(** In every run of a group in which at most one rank acts on files between
    two collective calls, the file operations performed so far followed by
    those that the rank-by-rank schedule would still perform are the file
    operations of the rank-by-rank schedule. *)
Lemma exec_canonical ps tr ps' :
  single_writer ps -> exec ps tr ps' ->
  canonical ps = file_events tr ++ canonical ps' /\ single_writer ps'.
Proof.
  intros Hsw Hexec. induction Hexec as [ps|ps ev ps1 tr ps2 Hstep Hexec IH]; [done|].
  destruct (step_canonical ps ev ps1 Hsw Hstep) as [Heq Hsw1].
  destruct (IH Hsw1) as [Heq2 Hsw2]. split; [|done].
  rewrite Heq, Heq2, app_assoc.
  by rewrite <-file_events_app.
Qed.



(** ** Groups given rank by rank *)

Lemma segs_contributions procs (F : nat -> list action) :
  segs (contributions procs F) = concat ((fun r => seg_file r (F r)) <$> seq 0 procs).
Proof.
  unfold segs, contributions. rewrite imap_fmap. f_equal.
  rewrite <-(length_seq procs 0) at 2. rewrite <-imap_seq_0.
  apply imap_ext. intros i x Hx. apply lookup_seq in Hx as [-> _]. done.
Qed.

Lemma contributions_ext {A} procs (F G : nat -> A) :
  (forall r, r < procs -> F r = G r) -> contributions procs F = contributions procs G.
Proof.
  intros Heq. unfold contributions. apply list_fmap_ext.
  intros i r Hr. apply lookup_seq in Hr as [-> Hlt]. apply Heq. lia.
Qed.

Lemma concat_single {A} (procs w : nat) (E : list A) :
  concat ((fun r => if decide (r = w) then E else []) <$> seq 0 procs)
  = if decide (w < procs) then E else [].
Proof.
  induction procs as [|n IH]; [by case_decide; try lia|].
  rewrite seq_S, fmap_app, concat_app, IH. simpl.
  repeat case_decide; try lia; by rewrite ?app_nil_r.
Qed.

Lemma one_writer_contributions procs (F : nat -> list action) (w : nat) :
  (forall r, r < procs -> r <> w -> seg_file r (F r) = []) ->
  one_writer (contributions procs F).
Proof.
  intros Hnil i j p q Hi Hj Hne1 Hne2.
  assert (forall k x, contributions procs F !! k = Some x -> seg_file k x <> [] -> k = w)
    as Hw.
  { intros k x Hk Hne. destruct (decide (k = w)) as [|Hkw]; [done|].
    assert (k < procs) as Hlt.
    { apply lookup_lt_Some in Hk. unfold contributions in Hk.
      by rewrite length_fmap, length_seq in Hk. }
    rewrite contributions_lookup in Hk by done. injection Hk as <-.
    by rewrite Hnil in Hne. }
  rewrite (Hw i p Hi Hne1), (Hw j q Hj Hne2). done.
Qed.

(** One segment of a group in which only rank [w] acts on files. *)
Lemma canonical_segment procs (G F : nat -> list action) (w : nat) (E : list event) :
  (forall r, r < procs -> seg_file r (G r) = if decide (r = w) then E else []) ->
  (forall r, r < procs -> after_coll (G r) = F r) ->
  canonical (contributions procs G)
    = (if decide (w < procs) then E else []) ++ canonical (contributions procs F) /\
  (single_writer (contributions procs F) -> single_writer (contributions procs G)).
Proof.
  intros Hseg Hac.
  assert (after_coll <$> contributions procs G = contributions procs F) as Hnext.
  { rewrite contributions_fmap. by apply contributions_ext. }
  split.
  - rewrite canonical_unfold, Hnext, segs_contributions. f_equal.
    rewrite <-concat_single. f_equal.
    apply list_fmap_ext. intros i r Hr. apply lookup_seq in Hr as [-> Hlt].
    apply Hseg. lia.
  - intros Hsw. apply single_writer_unfold. rewrite Hnext. split; [|done].
    apply (one_writer_contributions procs G w). intros r Hr Hne.
    rewrite Hseg by done. by rewrite decide_False.
Qed.

Lemma contributions_nils procs :
  Forall (fun p : list action => p = []) (contributions procs (fun _ => [])).
Proof. unfold contributions. apply Forall_fmap, Forall_forall. done. Qed.

Lemma single_writer_nils ps : Forall (fun p => p = []) ps -> single_writer ps.
Proof.
  intros Hall n.
  assert (Forall (fun p => p = []) (Nat.iter n (fmap after_coll) ps)) as Hn.
  { induction n as [|n IH]; [done|]. simpl.
    apply Forall_fmap. eapply Forall_impl; [exact IH|]. by intros p ->. }
  intros i j p q Hi Hj Hne. 
  by rewrite (proj1 (Forall_lookup _ _) Hn i p Hi) in Hne.
Qed.

(** A last segment: no collective call is left. *)
Lemma canonical_last procs (G : nat -> list action) (w : nat) (E : list event) :
  (forall r, r < procs -> seg_file r (G r) = if decide (r = w) then E else []) ->
  (forall r, r < procs -> after_coll (G r) = []) ->
  canonical (contributions procs G) = (if decide (w < procs) then E else []) /\
  single_writer (contributions procs G).
Proof.
  intros Hseg Hac.
  destruct (canonical_segment procs G (fun _ => []) w E Hseg Hac) as [Heq Hsw].
  rewrite (canonical_nils (contributions procs (fun _ => []))), app_nil_r in Heq
    by apply contributions_nils.
  split; [done|]. apply Hsw, single_writer_nils, contributions_nils.
Qed.

(** ** Local parts of a program *)

Lemma seg_file_app r p q :
  locals p -> seg_file r (p ++ q) = seg_file r p ++ seg_file r q.
Proof.
  induction 1 as [|a p [o ->] _ IH]; [done|]. simpl.
  destruct (is_file_op o); simpl; by rewrite IH.
Qed.

Lemma after_coll_app p q : locals p -> after_coll (p ++ q) = after_coll q.
Proof. induction 1 as [|a p [o ->] _ IH]; [done|]. done. Qed.

Lemma locals_app p q : locals p -> locals q -> locals (p ++ q).
Proof. apply Forall_app_2. Qed.

Lemma locals_say quiet s : locals (say quiet s).
Proof. destruct quiet; repeat constructor. eauto. Qed.

Lemma seg_file_say r quiet s : seg_file r (say quiet s) = [].
Proof. by destruct quiet. Qed.

Lemma locals_write_header r path n : locals (write_header r path n).
Proof. unfold write_header. case_bool_decide; repeat constructor; eauto. Qed.

Lemma locals_fmap ops : locals (Loc <$> ops).
Proof. apply Forall_fmap, Forall_forall. intros o _. simpl. eauto. Qed.

Lemma seg_file_file_ops r ops :
  Forall (fun o => is_file_op o = true) ops -> seg_file r (Loc <$> ops) = ELoc r <$> ops.
Proof. induction 1 as [|o ops Ho _ IH]; [done|]. csimpl. by rewrite Ho, IH. Qed.

Section FlattenFacts.
Context `{SpheralMath}.

Lemma node_line_is_Some nl nl_id nk :
  internal_lengths_ok nl -> nk < numInternalNodes nl ->
  is_Some (node_line nl nl_id nk).
Proof.
  intros (Hx & Hv & Hm & Hr & Hu & HH) Hnk.
  pose proof (length_internalValues_ge _ _ Hr).
  pose proof (length_internalValues_ge _ _ Hu).
  unfold node_line.
  destruct (lookup_lt_is_Some_2 (internalValues nl (positions nl)) nk) as [x ->]; [lia|].
  destruct (lookup_lt_is_Some_2 (internalValues nl (velocity nl)) nk) as [v ->]; [lia|].
  destruct (lookup_lt_is_Some_2 (internalValues nl (mass nl)) nk) as [m ->]; [lia|].
  destruct (lookup_lt_is_Some_2 (internalValues nl (massDensity nl)) nk) as [r ->]; [lia|].
  destruct (lookup_lt_is_Some_2
              (setPressure (equationOfState nl) (massDensity nl) (specificThermalEnergy nl))
              nk) as [p ->].
  { unfold setPressure. rewrite length_zip_with. lia. }
  destruct (lookup_lt_is_Some_2
              (setTemperature (equationOfState nl) (massDensity nl) (specificThermalEnergy nl))
              nk) as [T ->].
  { unfold setTemperature. rewrite length_zip_with. lia. }
  destruct (lookup_lt_is_Some_2 (internalValues nl (specificThermalEnergy nl)) nk)
    as [u ->]; [lia|].
  destruct (lookup_lt_is_Some_2 (internalValues nl (Hfield nl)) nk) as [Ht ->]; [lia|].
  simpl. eauto.
Qed.

Lemma write_lines_ok path nl nl_id nks :
  Forall (fun nk => is_Some (node_line nl nl_id nk)) nks ->
  write_lines path nl nl_id nks
    = Loc <$> (FWrite path <$> omap (node_line nl nl_id) nks) /\
  length (omap (node_line nl nl_id) nks) = length nks.
Proof.
  induction 1 as [|nk nks [line Hline] _ [IH1 IH2]]; [done|].
  csimpl. rewrite Hline. csimpl. rewrite IH1, IH2. done.
Qed.

Lemma lines_ok nl nl_id :
  internal_lengths_ok nl ->
  Forall (fun nk => is_Some (node_line nl nl_id nk)) (seq 0 (numInternalNodes nl)).
Proof.
  intros Hok. apply Forall_forall. intros nk Hnk. apply elem_of_seq in Hnk.
  apply node_line_is_Some; [done|lia].
Qed.


Lemma take_turn_ok path nl nl_id :
  internal_lengths_ok nl -> take_turn path nl nl_id = Loc <$> turn_ops path nl nl_id.
Proof.
  intros Hok. unfold take_turn, turn_ops, lines_of.
  destruct (write_lines_ok path nl nl_id _ (lines_ok nl nl_id Hok)) as [-> _].
  by rewrite fmap_cons, fmap_app.
Qed.

Lemma turn_ops_file path nl nl_id :
  Forall (fun o => is_file_op o = true) (turn_ops path nl nl_id).
Proof.
  unfold turn_ops. constructor; [done|]. apply Forall_app. split.
  - apply Forall_fmap, Forall_forall. done.
  - by repeat constructor.
Qed.

Lemma seg_file_take_turn r path nl nl_id :
  internal_lengths_ok nl ->
  seg_file r (take_turn path nl nl_id) = turn_events r path nl nl_id.
Proof.
  intros Hok. rewrite take_turn_ok by done.
  apply seg_file_file_ops, turn_ops_file.
Qed.

Lemma locals_take_turn path nl nl_id :
  internal_lengths_ok nl -> locals (take_turn path nl nl_id).
Proof. intros Hok. rewrite take_turn_ok by done. apply locals_fmap. Qed.

Lemma turns_cons j js rank path nl nl_id :
  turns (j :: js) rank path nl nl_id
  = (if bool_decide (j = rank) then take_turn path nl nl_id else []) ++
    Coll CBarrier :: turns js rank path nl nl_id.
Proof. unfold turns. simpl. by rewrite <-app_assoc. Qed.

Lemma seg_file_turn_then_barrier (r j : nat) path nl nl_id p :
  internal_lengths_ok nl ->
  seg_file r ((if bool_decide (j = r) then take_turn path nl nl_id else []) ++
              Coll CBarrier :: p)
  = if decide (r = j) then turn_events r path nl nl_id else [].
Proof.
  intros Hok. case_bool_decide; case_decide; try congruence; [|done].
  rewrite seg_file_app by (by apply locals_take_turn).
  rewrite seg_file_take_turn by done. simpl. by rewrite app_nil_r.
Qed.

Lemma after_coll_turn_then_barrier (r j : nat) path nl nl_id p :
  internal_lengths_ok nl ->
  after_coll ((if bool_decide (j = r) then take_turn path nl nl_id else []) ++
              Coll CBarrier :: p) = p.
Proof.
  intros Hok. case_bool_decide; [|done].
  by rewrite after_coll_app by (by apply locals_take_turn).
Qed.

(** The turns of the ranks [j, j+1, ..., j+k-1], followed by [rest]. *)
Lemma canonical_turns procs group path nl_id rest k j :
  (forall r, r < procs -> internal_lengths_ok (group r)) ->
  j + k <= procs ->
  canonical (contributions procs
               (fun r => turns (seq j k) r path (group r) nl_id ++ rest r))
    = concat ((fun r => turn_events r path (group r) nl_id) <$> seq j k) ++
      canonical (contributions procs rest) /\
  (single_writer (contributions procs rest) ->
   single_writer (contributions procs
                    (fun r => turns (seq j k) r path (group r) nl_id ++ rest r))).
Proof.
  intros Hok. revert j. induction k as [|k IH]; intros j Hle; [done|].
  destruct (IH (S j)) as [IHeq IHsw]; [lia|].
  destruct (canonical_segment procs
              (fun r => turns (seq j (S k)) r path (group r) nl_id ++ rest r)
              (fun r => turns (seq (S j) k) r path (group r) nl_id ++ rest r)
              j (turn_events j path (group j) nl_id)) as [Heq Hsw].
  - intros r Hr. simpl. rewrite turns_cons, <-app_assoc. simpl.
    rewrite seg_file_turn_then_barrier by auto.
    by case_decide; subst.
  - intros r Hr. simpl. rewrite turns_cons, <-app_assoc. simpl.
    by rewrite after_coll_turn_then_barrier by auto.
  - split; [|by auto].
    rewrite Heq, IHeq, decide_True by lia. simpl. by rewrite app_assoc.
Qed.

(** The same with local operations [pre] before the first turn, of which
    only those of rank [j] act on files. *)
Lemma canonical_turns_after procs group path nl_id pre E0 rest k j :
  (forall r, r < procs -> internal_lengths_ok (group r)) ->
  (forall r, r < procs -> locals (pre r)) ->
  (forall r, r < procs -> seg_file r (pre r) = if decide (r = j) then E0 else []) ->
  j + S k <= procs ->
  canonical (contributions procs
               (fun r => pre r ++ turns (seq j (S k)) r path (group r) nl_id ++ rest r))
    = E0 ++ concat ((fun r => turn_events r path (group r) nl_id) <$> seq j (S k)) ++
      canonical (contributions procs rest) /\
  (single_writer (contributions procs rest) ->
   single_writer (contributions procs
                    (fun r => pre r ++ turns (seq j (S k)) r path (group r) nl_id ++ rest r))).
Proof.
  intros Hok Hloc Hpre Hle.
  destruct (canonical_turns procs group path nl_id rest k (S j) Hok) as [IHeq IHsw]; [lia|].
  destruct (canonical_segment procs
              (fun r => pre r ++ turns (seq j (S k)) r path (group r) nl_id ++ rest r)
              (fun r => turns (seq (S j) k) r path (group r) nl_id ++ rest r)
              j (E0 ++ turn_events j path (group j) nl_id)) as [Heq Hsw].
  - intros r Hr. simpl. rewrite turns_cons, <-app_assoc. simpl.
    rewrite seg_file_app, Hpre by auto.
    rewrite seg_file_turn_then_barrier by auto.
    by case_decide; subst.
  - intros r Hr. simpl. rewrite turns_cons, <-app_assoc. simpl.
    rewrite after_coll_app by auto.
    by rewrite after_coll_turn_then_barrier by auto.
  - split; [|by auto].
    rewrite Heq, IHeq, decide_True by lia. simpl. by rewrite <-!app_assoc.
Qed.
End FlattenFacts.

Section FlattenRunFacts.
Context `{SpheralMath}.

Lemma pflatten_node_list_unfold procs group rank path hdr nl_id quiet :
  pflatten_node_list procs group rank (PStr path) (PBool hdr) (PInt nl_id) (PBool quiet)
  = (if hdr
     then Coll CAllreduce :: write_header rank path (nbGlobalNodes procs group)
     else []) ++
    say quiet (flattening_message (group rank)) ++
    turns (seq 0 procs) rank path (group rank) nl_id ++
    say quiet ("Done." +:+ newline).
Proof. reflexivity. Qed.

Lemma seg_file_write_header r path n :
  seg_file r (write_header r path n)
  = if decide (r = 0) then header_events path n else [].
Proof.
  unfold write_header. case_bool_decide; case_decide; try congruence; [|done].
  by subst.
Qed.

Lemma canonical_done procs quiet s :
  canonical (contributions procs (fun _ => say quiet s)) = [] /\
  single_writer (contributions procs (fun _ => say quiet s)).
Proof.
  destruct (canonical_last procs (fun _ => say quiet s) 0 []) as [Heq Hsw].
  - intros r _. rewrite seg_file_say. by case_decide.
  - intros r _. by destruct quiet.
  - split; [|done]. rewrite Heq. by case_decide.
Qed.

(** The turns of a call, after local operations [pre] of which only those
    of rank 0 act on files, and before [rest]. *)
Lemma canonical_call procs group path nl_id quiet pre E0 rest :
  0 < procs ->
  (forall r, r < procs -> internal_lengths_ok (group r)) ->
  (forall r, r < procs -> locals (pre r)) ->
  (forall r, r < procs -> seg_file r (pre r) = if decide (r = 0) then E0 else []) ->
  let G := fun r =>
    pre r ++ say quiet (flattening_message (group r)) ++
    turns (seq 0 procs) r path (group r) nl_id ++ rest r in
  canonical (contributions procs G)
    = E0 ++ data_events procs group path nl_id ++ canonical (contributions procs rest) /\
  (single_writer (contributions procs rest) -> single_writer (contributions procs G)).
Proof.
  intros Hpos Hok Hloc Hpre G. destruct procs as [|k]; [lia|].
  destruct (canonical_turns_after (S k) group path nl_id
              (fun r => pre r ++ say quiet (flattening_message (group r)))
              E0 rest k 0 Hok) as [Heq Hsw].
  - intros r Hr. apply locals_app; [auto|apply locals_say].
  - intros r Hr. rewrite seg_file_app, seg_file_say, app_nil_r by auto. auto.
  - lia.
  - assert (contributions (S k) G
            = contributions (S k)
                (fun r => (pre r ++ say quiet (flattening_message (group r))) ++
                          turns (seq 0 (S k)) r path (group r) nl_id ++ rest r)) as ->.
    { apply contributions_ext. intros r _. unfold G. by rewrite <-app_assoc. }
    done.
Qed.

(** The file operations of [pflatten_node_list] in the rank-by-rank
    schedule: the header, then the turns in ascending rank order. *)
Lemma pflatten_group_canonical procs group path hdr nl_id quiet :
  0 < procs ->
  (forall r, r < procs -> internal_lengths_ok (group r)) ->
  let ps := pflatten_group procs group (PStr path) (PBool hdr) (PInt nl_id) (PBool quiet) in
  canonical ps = flatten_events procs group path hdr nl_id /\ single_writer ps.
Proof.
  intros Hpos Hok ps. unfold flatten_events.
  destruct (canonical_done procs quiet ("Done." +:+ newline)) as [Hdone Hsw_done].
  destruct hdr.
  - destruct (canonical_call procs group path nl_id quiet
                (fun r => write_header r path (nbGlobalNodes procs group))
                (header_events path (nbGlobalNodes procs group))
                (fun _ => say quiet ("Done." +:+ newline)) Hpos Hok) as [Hcall Hsw_call].
    { intros r _. apply locals_write_header. }
    { intros r _. apply seg_file_write_header. }
    destruct (canonical_segment procs
                (fun r => pflatten_node_list procs group r (PStr path) (PBool true)
                            (PInt nl_id) (PBool quiet))
                (fun r => write_header r path (nbGlobalNodes procs group) ++
                          say quiet (flattening_message (group r)) ++
                          turns (seq 0 procs) r path (group r) nl_id ++
                          say quiet ("Done." +:+ newline))
                0 []) as [Heq Hsw].
    { intros r _. rewrite pflatten_node_list_unfold. simpl. by case_decide. }
    { intros r _. by rewrite pflatten_node_list_unfold. }
    unfold ps, pflatten_group. split; [|by auto].
    rewrite Heq, Hcall, Hdone, app_nil_r. by case_decide.
  - destruct (canonical_call procs group path nl_id quiet
                (fun _ => []) [] (fun _ => say quiet ("Done." +:+ newline))
                Hpos Hok) as [Hcall Hsw_call].
    { intros r _. constructor. }
    { intros r _. by case_decide. }
    unfold ps, pflatten_group. split; [|by auto].
    simpl in Hcall. rewrite Hdone, app_nil_r in Hcall. exact Hcall.
Qed.
End FlattenRunFacts.

(** ** What the file operations leave in the file *)



Section FileContents.
Context `{SpheralMath}.









End FileContents.

(** ** Runs reach the end: no rank is left waiting *)

Lemma syncs_app tr1 tr2 : syncs (tr1 ++ tr2) = syncs tr1 ++ syncs tr2.
Proof. induction tr1 as [|[] tr1 IH]; simpl; by rewrite ?IH. Qed.










Lemma step_aligned ps ev ps' sk :
  aligned ps sk -> step ps ev ps' ->
  exists sk', aligned ps' sk' /\ sk = syncs [ev] ++ sk'.
Proof.
  intros Hal Hstep. destruct Hstep as [ps r o rest Hr|ps c Hne Hall|ps r e rest Hr].
  - exists sk. split; [|done].
    apply Forall_insert; [done|].
    destruct (proj1 (Forall_lookup _ _) Hal r _ Hr) as [Hnt Hsk].
    split; [|done]. by apply Forall_cons in Hnt as [_ ?].
  - exists (tail sk). split.
    + apply Forall_fmap.
      assert (Forall (fun p => (no_throw p /\ coll_skel p = sk) /\
                               head p = Some (Coll c)) ps) as Hboth
        by (by apply Forall_and).
      eapply Forall_impl; [exact Hboth|].
      intros p [[Hnt Hsk] Hhd]. simpl.
      destruct p as [|[] p]; simplify_eq/=. split; [|done].
      by apply Forall_cons in Hnt as [_ ?].
    + destruct ps as [|p ps]; [done|].
      apply Forall_cons in Hal as [[_ Hsk] _].
      apply Forall_cons in Hall as [Hhd _].
      destruct p as [|[] p]; simplify_eq/=. done.
  - destruct (proj1 (Forall_lookup _ _) Hal r _ Hr) as [Hnt _].
    by apply Forall_cons in Hnt as [? _].
Qed.

(** In a run of such a group the collective calls completed so far are the
    first calls of every rank. *)
Lemma exec_aligned ps tr ps' sk :
  aligned ps sk -> exec ps tr ps' ->
  exists sk', aligned ps' sk' /\ sk = syncs tr ++ sk'.
Proof.
  intros Hal Hexec. revert sk Hal.
  induction Hexec as [ps|ps ev ps1 tr ps2 Hstep Hexec IH]; intros sk Hal.
  - exists sk. done.
  - destruct (step_aligned ps ev ps1 sk Hal Hstep) as (sk1 & Hal1 & ->).
    destruct (IH sk1 Hal1) as (sk2 & Hal2 & ->).
    exists sk2. split; [done|].
    change (ev :: tr) with ([ev] ++ tr). by rewrite syncs_app, app_assoc.
Qed.


Lemma coll_skel_app p q : coll_skel (p ++ q) = coll_skel p ++ coll_skel q.
Proof. induction p as [|[] p IH]; simpl; by rewrite ?IH. Qed.

Lemma no_throw_app p q : no_throw p -> no_throw q -> no_throw (p ++ q).
Proof. apply Forall_app_2. Qed.

Lemma locals_skel p : locals p -> coll_skel p = [] /\ no_throw p.
Proof.
  induction 1 as [|a p [o ->] _ [IH1 IH2]]; [by split; [|constructor]|].
  split; [done|]. by constructor.
Qed.

Section FlattenAligned.
Context `{SpheralMath}.

Lemma turns_skel js rank path nl nl_id :
  internal_lengths_ok nl ->
  coll_skel (turns js rank path nl nl_id) = replicate (length js) CBarrier /\
  no_throw (turns js rank path nl nl_id).
Proof.
  intros Hok. induction js as [|j js [IH1 IH2]]; [by split; [|constructor]|].
  rewrite turns_cons.
  assert (locals (if bool_decide (j = rank) then take_turn path nl nl_id else []))
    as Hloc.
  { case_bool_decide; [by apply locals_take_turn|constructor]. }
  destruct (locals_skel _ Hloc) as [Hsk Hnt]. split.
  - rewrite coll_skel_app, Hsk. simpl. by rewrite IH1.
  - apply no_throw_app; [done|]. by constructor.
Qed.

Lemma pflatten_node_list_skel procs group rank path hdr nl_id quiet :
  internal_lengths_ok (group rank) ->
  no_throw (pflatten_node_list procs group rank (PStr path) (PBool hdr)
              (PInt nl_id) (PBool quiet)) /\
  coll_skel (pflatten_node_list procs group rank (PStr path) (PBool hdr)
               (PInt nl_id) (PBool quiet)) = flatten_skel procs hdr.
Proof.
  intros Hok. rewrite pflatten_node_list_unfold. unfold flatten_skel.
  destruct (turns_skel (seq 0 procs) rank path (group rank) nl_id Hok) as [Hsk Hnt].
  destruct (locals_skel _ (locals_say quiet (flattening_message (group rank))))
    as [Hsk1 Hnt1].
  destruct (locals_skel _ (locals_say quiet ("Done." +:+ newline))) as [Hsk2 Hnt2].
  destruct (locals_skel _ (locals_write_header rank path (nbGlobalNodes procs group)))
    as [Hsk3 Hnt3].
  rewrite length_seq in Hsk.
  split.
  - apply no_throw_app; [|by repeat apply no_throw_app].
    destruct hdr; by constructor.
  - rewrite !coll_skel_app, Hsk, Hsk1, Hsk2, app_nil_r. simpl. f_equal.
    destruct hdr; [|done]. simpl. by rewrite Hsk3.
Qed.

Lemma pflatten_group_aligned procs group path hdr nl_id quiet :
  (forall r, r < procs -> internal_lengths_ok (group r)) ->
  aligned (pflatten_group procs group (PStr path) (PBool hdr) (PInt nl_id) (PBool quiet))
    (flatten_skel procs hdr).
Proof.
  intros Hok. unfold aligned, pflatten_group, contributions.
  apply Forall_fmap, Forall_forall. intros r Hr. apply elem_of_seq in Hr.
  simpl. apply pflatten_node_list_skel, Hok. lia.
Qed.


End FlattenAligned.


Example demo_first_line :
  lines_of (H := demo_math) (demo_group 0) 7 !! 0 =
  Some (" 7  +1.00000e+00  +1.00000e+00  +2.00000e+00  +1.00000e+00  +1.00000e+00  +2.00000e+00  +1.00000e+00  +1.00000e+00  +1.00000e+00  +1.00000e+00  +1.00000e+00  +1.00000e+00  +2.00000e+00  "
        +:+ newline).
Proof. vm_compute. reflexivity. Qed.

(** ** [pflatten_node_list_list] *)


Section FlattenListFacts.
Context `{SpheralMath}.







End FlattenListFacts.

Section FlattenListClaims.
Context `{SpheralMath}.










End FlattenListClaims.

(** ** Order of events within a run *)

Lemma exec_split ps tr1 tr2 ps' :
  exec ps (tr1 ++ tr2) ps' -> exists ps1, exec ps tr1 ps1 /\ exec ps1 tr2 ps'.
Proof.
  revert ps. induction tr1 as [|ev tr1 IH]; intros ps Hexec.
  - exists ps. split; [constructor|done].
  - inversion Hexec as [|? ? ps1 ? ? Hstep Hrest]; subst.
    destruct (IH ps1 Hrest) as (ps2 & H1 & H2).
    exists ps2. split; [|done]. by eapply exec_cons.
Qed.

Lemma file_events_elem ev tr : ev ∈ file_events tr -> ev ∈ tr.
Proof.
  induction tr as [|ev' tr IH]; simpl; intros Hin; [done|].
  destruct ev' as [r o| |]; try (by apply list_elem_of_further, IH).
  destruct (is_file_op o); [|by apply list_elem_of_further, IH].
  apply elem_of_cons in Hin as [->|Hin]; [apply list_elem_of_here|].
  by apply list_elem_of_further, IH.
Qed.

(** What is left of a rank is always an end piece of its program. *)
Lemma step_suffix ps ev ps' :
  step ps ev ps' -> Forall2 (fun p' p => p' `suffix_of` p) ps' ps.
Proof.
  intros Hstep. destruct Hstep as [ps r o rest Hr|ps c Hne Hall|ps r e rest Hr].
  - apply Forall2_lookup. intros i. destruct (decide (i = r)) as [->|Hne].
    + rewrite list_lookup_insert_eq by (by eapply lookup_lt_Some). rewrite Hr.
      constructor. by apply suffix_cons_r.
    + rewrite list_lookup_insert_ne by done. destruct (ps !! i); by constructor.
  - apply Forall2_fmap_l, Forall_Forall2_diag, Forall_forall.
    intros p _. destruct p; simpl; [done|by apply suffix_cons_r].
  - apply Forall2_lookup. intros i. destruct (decide (i = r)) as [->|Hne].
    + rewrite list_lookup_insert_eq by (by eapply lookup_lt_Some). rewrite Hr.
      constructor. apply suffix_nil.
    + rewrite list_lookup_insert_ne by done. destruct (ps !! i); by constructor.
Qed.

Lemma exec_suffix ps tr ps' :
  exec ps tr ps' -> Forall2 (fun p' p => p' `suffix_of` p) ps' ps.
Proof.
  induction 1 as [ps|ps ev ps1 tr ps2 Hstep _ IH].
  - by apply Forall_Forall2_diag, Forall_forall.
  - pose proof (step_suffix _ _ _ Hstep) as H1.
    eapply Forall2_trans; [|exact IH|exact H1].
    intros p1 p2 p3. apply transitivity.
Qed.

Lemma suffix_app_cases {A} (x l1 l2 : list A) :
  x `suffix_of` l1 ++ l2 ->
  x `suffix_of` l2 \/ exists x', x' <> [] /\ x = x' ++ l2 /\ x' `suffix_of` l1.
Proof.
  induction l1 as [|a l1 IH]; intros Hsuf; [by left|].
  destruct Hsuf as [k Hk]. destruct k as [|b k]; simpl in Hk.
  - right. exists (a :: l1). split; [done|]. split; [by rewrite <-Hk|done].
  - injection Hk as -> Hk.
    destruct IH as [?|(x' & ? & ? & ?)]; [by exists k|by left|].
    right. exists x'. split; [done|]. split; [done|]. by apply suffix_cons_r.
Qed.

Lemma suffix_head_elem {A} (a : A) x l : a :: x `suffix_of` l -> a ∈ l.
Proof.
  intros [k ->]. apply elem_of_app. right. apply list_elem_of_here.
Qed.

Lemma coll_skel_replicate n c : coll_skel (replicate n (Coll c)) = replicate n c.
Proof. induction n as [|n IH]; [done|]. simpl. by rewrite IH. Qed.

Section TurnOrder.
Context `{SpheralMath}.

Lemma turns_app js1 js2 rank path nl nl_id :
  turns (js1 ++ js2) rank path nl nl_id
  = turns js1 rank path nl nl_id ++ turns js2 rank path nl nl_id.
Proof. unfold turns. by rewrite fmap_app, concat_app. Qed.

Lemma turns_not_mine js rank path nl nl_id :
  rank ∉ js -> turns js rank path nl nl_id = replicate (length js) (Coll CBarrier).
Proof.
  induction js as [|j js IH]; intros Hnot; [done|].
  apply not_elem_of_cons in Hnot as [Hne Hnot].
  rewrite turns_cons, bool_decide_eq_false_2 by done. simpl. by rewrite IH.
Qed.

(** The program of a rank around its own turn. *)
Lemma pflatten_node_list_around_turn procs group rank path nl_id quiet :
  rank < procs ->
  internal_lengths_ok (group rank) ->
  pflatten_node_list procs group rank (PStr path) (PBool true) (PInt nl_id) (PBool quiet)
  = (Coll CAllreduce :: write_header rank path (nbGlobalNodes procs group) ++
     say quiet (flattening_message (group rank)) ++
     replicate rank (Coll CBarrier)) ++
    (Loc <$> turn_ops path (group rank) nl_id) ++
    (replicate (procs - rank) (Coll CBarrier) ++ say quiet ("Done." +:+ newline)).
Proof.
  intros Hlt Hok. rewrite pflatten_node_list_unfold.
  replace (seq 0 procs) with (seq 0 rank ++ [rank] ++ seq (S rank) (procs - S rank)).
  2:{ replace procs with (rank + (1 + (procs - S rank))) at 2 by lia.
      rewrite !seq_app. simpl. repeat f_equal; lia. }
  rewrite !turns_app.
  rewrite (turns_not_mine (seq 0 rank)), (turns_not_mine (seq (S rank) _)).
  2:{ rewrite elem_of_seq. lia. }
  2:{ rewrite elem_of_seq. lia. }
  rewrite !length_seq, turns_cons, bool_decide_eq_true_2, take_turn_ok by done.
  replace (procs - rank) with (S (procs - S rank)) by lia.
  simpl. rewrite <-!app_assoc. simpl. do 5 f_equal.
  by rewrite <-app_assoc.
Qed.

(** When a rank is about to write a line of data, the collective calls it
    has left are the barriers of its own turn and of the later turns. *)
Lemma data_write_skel procs group rank path nl_id quiet s rest :
  rank < procs ->
  internal_lengths_ok (group rank) ->
  Loc (FWrite path s) :: rest `suffix_of`
    pflatten_node_list procs group rank (PStr path) (PBool true) (PInt nl_id)
      (PBool quiet) ->
  s <> header_text (nbGlobalNodes procs group) ->
  coll_skel (Loc (FWrite path s) :: rest) = replicate (procs - rank) CBarrier.
Proof.
  intros Hlt Hok Hsuf Hs.
  rewrite pflatten_node_list_around_turn in Hsuf by done.
  assert (coll_skel (replicate (procs - rank) (Coll CBarrier) ++
                     say quiet ("Done." +:+ newline))
          = replicate (procs - rank) CBarrier) as Hskel.
  { rewrite coll_skel_app.
    destruct (locals_skel _ (locals_say quiet ("Done." +:+ newline))) as [-> _].
    rewrite app_nil_r. apply coll_skel_replicate. }
  apply suffix_app_cases in Hsuf as [Hsuf|(x' & Hne & Hx & Hsuf)].
  - apply suffix_app_cases in Hsuf as [Hsuf|(x' & Hne & Hx & Hsuf)].
    + apply suffix_head_elem, elem_of_app in Hsuf as [Hin|Hin].
      * by apply elem_of_replicate in Hin as [? _].
      * destruct quiet; simpl in Hin; [by apply elem_of_nil in Hin|].
        apply list_elem_of_singleton in Hin. done.
    + rewrite Hx, coll_skel_app, Hskel.
      assert (locals x') as Hloc.
      { destruct Hsuf as [k Hk]. pose proof (locals_fmap (turn_ops path (group rank) nl_id))
          as Hall. rewrite Hk in Hall. by apply Forall_app in Hall as [_ ?]. }
      by destruct (locals_skel _ Hloc) as [-> _].
  - destruct x' as [|a x']; [done|]. injection Hx as <- _.
    apply suffix_head_elem in Hsuf.
    apply elem_of_cons in Hsuf as [?|Hin]; [done|].
    apply elem_of_app in Hin as [Hin|Hin].
    { unfold write_header in Hin. case_bool_decide.
      - repeat (apply elem_of_cons in Hin as [Hin|Hin]; simplify_eq/=).
        by apply elem_of_nil in Hin.
      - by apply elem_of_nil in Hin. }
    apply elem_of_app in Hin as [Hin|Hin].
    { destruct quiet; simpl in Hin; [by apply elem_of_nil in Hin|].
      apply list_elem_of_singleton in Hin. done. }
    by apply elem_of_replicate in Hin as [? _].
Qed.
End TurnOrder.

Section HeaderOrder.
Context `{SpheralMath}.

(** C6, as the code has it: every rank takes part in the reduction of the
    row count, and no barrier follows the header. In every run, when rank
    [r] writes a line of data the header has been written, and the
    collective calls completed are the reduction and exactly [r] barriers:
    none for rank 0, which goes from the header straight to its lines. *)
Theorem data_follows_header_and_r_barriers (procs : nat) (group : nat -> NodeList)
    (path : string) (nl_id : Z) (quiet : bool)
    (tr : list event) (ps' : list (list action))
    (t1 : list event) (r : nat) (s : string) (t2 : list event) :
  0 < procs ->
  (forall q, q < procs -> internal_lengths_ok (group q)) ->
  exec (pflatten_group procs group (PStr path) (PBool true) (PInt nl_id) (PBool quiet))
    tr ps' ->
  tr = t1 ++ ELoc r (FWrite path s) :: t2 ->
  s <> header_text (nbGlobalNodes procs group) ->
  ELoc 0 (FWrite path (header_text (nbGlobalNodes procs group))) ∈ t1 /\
  syncs t1 = CAllreduce :: replicate r CBarrier.
Proof.
  intros Hpos Hok Hexec -> Hs.
  apply exec_split in Hexec as (ps1 & Hexec1 & Hexec2).
  inversion Hexec2 as [|? ? ps2 ? ? Hstep _]; subst.
  destruct (pflatten_group_canonical procs group path true nl_id quiet Hpos Hok)
    as [Hcanon Hsw].
  destruct (exec_canonical _ _ _ Hsw Hexec1) as [Heq1 Hsw1].
  destruct (step_canonical _ _ _ Hsw1 Hstep) as [Heq2 _].
  split.
  - rewrite Hcanon, Heq2 in Heq1. unfold flatten_events, header_events in Heq1.
    simpl in Heq1.
    destruct (file_events t1) as [|e0 [|e1 l]] eqn:Hfe; simplify_eq/=.
    apply file_events_elem. rewrite Hfe.
    apply list_elem_of_further, list_elem_of_here.
  - inversion Hstep as [? ? ? rest Hr| |]; subst.
    pose proof (exec_suffix _ _ _ Hexec1) as Hsuf.
    destruct (Forall2_lookup_l _ _ _ _ _ Hsuf Hr) as (p0 & Hp0 & Hsuf0).
    assert (r < procs) as Hlt.
    { apply lookup_lt_Some in Hp0.
      unfold pflatten_group, contributions in Hp0.
      by rewrite length_fmap, length_seq in Hp0. }
    unfold pflatten_group in Hp0. rewrite contributions_lookup in Hp0 by done.
    injection Hp0 as <-.
    pose proof (data_write_skel procs group r path nl_id quiet s rest Hlt
                  (Hok r Hlt) Hsuf0 Hs) as Hskel.
    destruct (exec_aligned _ _ _ _
                (pflatten_group_aligned procs group path true nl_id quiet Hok) Hexec1)
      as (sk1 & Hal1 & Hsk).
    destruct (proj1 (Forall_lookup _ _) Hal1 r _ Hr) as [_ Hsk1].
    rewrite Hskel in Hsk1. subst sk1.
    unfold flatten_skel in Hsk. simpl in Hsk.
    replace procs with (r + (procs - r)) in Hsk at 1 by lia.
    rewrite replicate_add in Hsk.
    change (CAllreduce :: ?l ++ ?k) with ((CAllreduce :: l) ++ k) in Hsk.
    by apply app_inv_tail in Hsk.
Qed.
End HeaderOrder.

Lemma demo_run_reaches_data_write :
  exists ps',
    exec demo_table_run (demo_prefix ++ [ELoc 0 (FWrite "nodes.txt" demo_line)]) ps'.
Proof.
  eexists. unfold demo_prefix. simpl.
  eapply exec_cons; [apply step_sync; [done|repeat constructor]|].
  do 5 (eapply exec_cons; [eapply (step_loc _ 0); vm_compute; reflexivity|]).
  apply exec_nil.
Qed.

(** C6 as stated fails: in this run of two ranks, rank 0 writes its first
    line right after the header, and no barrier has been passed. *)
Lemma data_written_before_first_barrier :
  exists ps',
    exec demo_table_run (demo_prefix ++ [ELoc 0 (FWrite "nodes.txt" demo_line)]) ps' /\
    lines_of (H := demo_math) (demo_group 0) 0 !! 0 = Some demo_line /\
    ELoc 0 (FWrite "nodes.txt" (header_text 5)) ∈ demo_prefix /\
    ESync CBarrier ∉ demo_prefix.
Proof.
  destruct demo_run_reaches_data_write as [ps' Hexec].
  exists ps'. split; [done|]. split; [vm_compute; reflexivity|]. split.
  - do 2 apply list_elem_of_further. apply list_elem_of_here.
  - intros Hin.
    repeat (apply elem_of_cons in Hin as [Hin|Hin]; [discriminate|]).
    by apply elem_of_nil in Hin.
Qed.

Lemma demo_line_not_header : demo_line <> header_text 5.
Proof. intros Heq. vm_compute in Heq. discriminate. Qed.

Lemma data_follows_header_and_r_barriers_witness :
  ELoc 0 (FWrite "nodes.txt" (header_text 5)) ∈ demo_prefix /\
  syncs demo_prefix = CAllreduce :: replicate 0 CBarrier.
Proof.
  destruct demo_run_reaches_data_write as [ps' Hexec].
  apply (data_follows_header_and_r_barriers (H := demo_math) 2 demo_group "nodes.txt"
           0 true (demo_prefix ++ [ELoc 0 (FWrite "nodes.txt" demo_line)])
           ps' demo_prefix 0 demo_line []).
  - lia.
  - intros q _. apply demo_group_ok.
  - exact Hexec.
  - reflexivity.
  - exact demo_line_not_header.
Defined.

(** ** Scientific notation: the digits *)

Section Digits.
Local Open Scope Z_scope.

Lemma log10_floor_spec fuel q :
  1 <= q < 10 ^ Z.of_nat fuel ->
  0 <= log10_floor fuel q /\
  10 ^ log10_floor fuel q <= q < 10 ^ (log10_floor fuel q + 1).
Proof.
  revert q. induction fuel as [|f IH]; intros q Hq.
  - simpl in Hq. lia.
  - simpl log10_floor. destruct (Z.ltb_spec q 10) as [Hlt|Hge].
    + simpl. lia.
    + rewrite Nat2Z.inj_succ, Z.pow_succ_r in Hq by lia.
      assert (1 <= q / 10 < 10 ^ Z.of_nat f) as Hq'.
      { split; [apply Z.div_le_lower_bound; lia|].
        apply Z.div_lt_upper_bound; lia. }
      destruct (IH _ Hq') as (Hr & Hlo & Hhi).
      pose proof (Z.div_mod q 10 ltac:(lia)) as Hdm.
      pose proof (Z.mod_pos_bound q 10 ltac:(lia)) as Hmod.
      split; [lia|].
      replace (1 + log10_floor f (q / 10) + 1)
        with (Z.succ (log10_floor f (q / 10) + 1)) by lia.
      replace (1 + log10_floor f (q / 10))
        with (Z.succ (log10_floor f (q / 10))) by lia.
      rewrite !Z.pow_succ_r by lia. lia.
Qed.

Lemma pow2_le_pow10 n : 0 <= n -> 2 ^ n <= 10 ^ n.
Proof. intros Hn. apply Z.pow_le_mono_l. lia. Qed.

Lemma lt_pow10_log2 q :
  1 <= q -> q < 10 ^ Z.of_nat (S (Z.to_nat (Z.log2 q))).
Proof.
  intros Hq. pose proof (Z.log2_nonneg q) as Hnn.
  rewrite Nat2Z.inj_succ, Z2Nat.id by done.
  pose proof (Z.log2_spec q ltac:(lia)) as [_ Hhi].
  pose proof (pow2_le_pow10 (Z.succ (Z.log2 q)) ltac:(lia)). lia.
Qed.

Lemma neg_exp10_spec fuel num den :
  0 < num < den ->
  den <= num * 10 ^ Z.of_nat fuel ->
  1 <= neg_exp10 fuel num den /\
  num * 10 ^ (neg_exp10 fuel num den - 1) < den <= num * 10 ^ neg_exp10 fuel num den.
Proof.
  revert num. induction fuel as [|f IH]; intros num Hnum Hfuel.
  - simpl in Hfuel. lia.
  - simpl neg_exp10. destruct (Z.leb_spec den (num * 10)) as [Hle|Hgt].
    + simpl. lia.
    + rewrite Nat2Z.inj_succ, Z.pow_succ_r in Hfuel by lia.
      destruct (IH (num * 10)) as (Hj & Hlo & Hhi); [lia|lia|].
      split; [lia|].
      replace (1 + neg_exp10 f (num * 10) den - 1)
        with (Z.succ (neg_exp10 f (num * 10) den - 1)) by lia.
      replace (1 + neg_exp10 f (num * 10) den)
        with (Z.succ (neg_exp10 f (num * 10) den)) by lia.
      rewrite !Z.pow_succ_r by lia. lia.
Qed.

(** [dec_exponent] brackets the value between two powers of ten. *)
Lemma dec_exponent_spec num den :
  0 < num -> 0 < den ->
  let k := dec_exponent num den in
  (0 <= k /\ 10 ^ k * den <= num < 10 ^ (k + 1) * den) \/
  (k < 0 /\ num * 10 ^ (- k - 1) < den <= num * 10 ^ (- k)).
Proof.
  intros Hnum Hden k. unfold k, dec_exponent.
  destruct (Z.leb_spec den num) as [Hle|Hgt].
  - left.
    assert (1 <= num / den) as Hq by (apply Z.div_le_lower_bound; lia).
    destruct (log10_floor_spec _ _ (conj Hq (lt_pow10_log2 _ Hq))) as (Hr & Hlo & Hhi).
    split; [done|].
    pose proof (Z.div_mod num den ltac:(lia)) as Hdm.
    pose proof (Z.mod_pos_bound num den ltac:(lia)) as Hmod.
    split; nia.
  - right.
    destruct (neg_exp10_spec (S (Z.to_nat (Z.log2 den))) num den) as (Hj & Hlo & Hhi).
    + lia.
    + pose proof (lt_pow10_log2 den ltac:(lia)).
      assert (0 < 10 ^ Z.of_nat (S (Z.to_nat (Z.log2 den)))) by (apply Z.pow_pos_nonneg; lia).
      nia.
    + split; [lia|].
      replace (- - neg_exp10 (S (Z.to_nat (Z.log2 den))) num den - 1)
        with (neg_exp10 (S (Z.to_nat (Z.log2 den))) num den - 1) by lia.
      rewrite Z.opp_involutive. done.
Qed.

Lemma round_half_even_bounds n d :
  0 < d -> n / d <= round_half_even n d <= n / d + 1.
Proof.
  intros Hd. unfold round_half_even.
  destruct (2 * (n mod d) ?= d); [destruct (Z.even (n / d))|..]; lia.
Qed.

(** The scaled value lies between [10^prec] and [10^(prec+1)]. *)
Lemma scale10_window prec num den :
  0 <= prec -> 0 < num -> 0 < den ->
  let '(n, d) := scale10 num den (prec - dec_exponent num den) in
  0 < d /\ 10 ^ prec * d <= n < 10 ^ (prec + 1) * d.
Proof.
  intros Hp Hnum Hden.
  destruct (dec_exponent_spec num den Hnum Hden) as [(Hk & Hlo & Hhi)|(Hk & Hlo & Hhi)];
    set (k := dec_exponent num den) in *; unfold scale10.
  - destruct (Z.leb_spec 0 (prec - k)) as [Hs|Hs].
    + split; [done|].
      assert (10 ^ prec = 10 ^ k * 10 ^ (prec - k)) as ->.
      { rewrite <-Z.pow_add_r by lia. f_equal; lia. }
      assert (10 ^ (prec + 1) = 10 ^ (k + 1) * 10 ^ (prec - k)) as ->.
      { rewrite <-Z.pow_add_r by lia. f_equal; lia. }
      assert (0 < 10 ^ (prec - k)) by (apply Z.pow_pos_nonneg; lia).
      nia.
    + assert (0 < 10 ^ (- (prec - k))) by (apply Z.pow_pos_nonneg; lia).
      split; [nia|].
      assert (10 ^ k = 10 ^ prec * 10 ^ (- (prec - k))) as Hk1.
      { rewrite <-Z.pow_add_r by lia. f_equal; lia. }
      assert (10 ^ (k + 1) = 10 ^ (prec + 1) * 10 ^ (- (prec - k))) as Hk2.
      { rewrite <-Z.pow_add_r by lia. f_equal; lia. }
      rewrite Hk1 in Hlo. rewrite Hk2 in Hhi. nia.
  - destruct (Z.leb_spec 0 (prec - k)) as [Hs|Hs]; [|lia].
    split; [done|].
    assert (10 ^ (prec - k) = 10 ^ prec * 10 ^ (- k)) as Hk1.
    { rewrite <-Z.pow_add_r by lia. f_equal; lia. }
    assert (10 ^ (prec - k) = 10 ^ (prec + 1) * 10 ^ (- k - 1)) as Hk2.
    { rewrite <-Z.pow_add_r by lia. f_equal; lia. }
    assert (0 < 10 ^ prec) by (apply Z.pow_pos_nonneg; lia).
    assert (0 < 10 ^ (prec + 1)) by (apply Z.pow_pos_nonneg; lia).
    split.
    + rewrite Hk1. nia.
    + rewrite Hk2. nia.
Qed.

(** The mantissa has exactly [prec + 1] digits. *)
Lemma sci_digits_range prec num den :
  0 <= prec -> 0 < num -> 0 < den ->
  10 ^ prec <= (sci_digits prec num den).1 < 10 ^ (prec + 1).
Proof.
  intros Hp Hnum Hden. unfold sci_digits.
  pose proof (scale10_window prec num den Hp Hnum Hden) as Hwin.
  destruct (scale10 num den (prec - dec_exponent num den)) as [n d].
  destruct Hwin as (Hd & Hlo & Hhi).
  pose proof (round_half_even_bounds n d Hd) as Hround.
  assert (10 ^ prec <= n / d) by (apply Z.div_le_lower_bound; lia).
  assert (n / d < 10 ^ (prec + 1)) by (apply Z.div_lt_upper_bound; lia).
  assert (10 ^ (prec + 1) = 10 * 10 ^ prec) as Hpow.
  { replace (prec + 1) with (Z.succ prec) by lia. by rewrite Z.pow_succ_r. }
  assert (0 < 10 ^ prec) by (apply Z.pow_pos_nonneg; lia).
  destruct (Z.eqb_spec (round_half_even n d) (10 ^ (prec + 1))); simpl; lia.
Qed.
End Digits.

(** ** Scientific notation: the text *)

Lemma is_digit_pretty_N_char x : is_digit (pretty_N_char x) = true.
Proof. unfold pretty_N_char. by repeat case_match. Qed.

Lemma pretty_N_go_digits (n : nat) (x : N) (s : string) :
  (10 ^ N.of_nat n <= x < 10 ^ N.of_nat (S n))%N ->
  String.length (pretty_N_go x s) = S n + String.length s /\
  (all_digits s = true -> all_digits (pretty_N_go x s) = true).
Proof.
  revert x s. induction n as [|n IH]; intros x s Hx.
  - simpl in Hx. rewrite pretty_N_go_step by lia.
    rewrite (N.div_small x 10), pretty_N_go_0 by lia. simpl.
    split; [done|]. intros ->. by rewrite is_digit_pretty_N_char.
  - rewrite !Nat2N.inj_succ, !N.pow_succ_r' in Hx.
    rewrite Nat2N.inj_succ, N.pow_succ_r' in IH.
    assert (0 < 10 ^ N.of_nat n)%N as Hpos by (apply N.neq_0_lt_0, N.pow_nonzero; lia).
    rewrite pretty_N_go_step by lia.
    destruct (IH (x `div` 10)%N (String (pretty_N_char (x `mod` 10)) s)) as [Hlen Hdig].
    { split; [apply N.div_le_lower_bound; lia|apply N.Div0.div_lt_upper_bound; lia]. }
    split; [rewrite Hlen; simpl; lia|].
    intros Hs. apply Hdig. simpl. by rewrite is_digit_pretty_N_char, Hs.
Qed.

Lemma pretty_Z_digits (n : nat) (m : Z) :
  (10 ^ Z.of_nat n <= m < 10 ^ Z.of_nat (S n))%Z ->
  String.length (pretty m) = S n /\ all_digits (pretty m) = true.
Proof.
  intros Hm.
  assert (0 < 10 ^ Z.of_nat n)%Z as Hpos by (apply Z.pow_pos_nonneg; lia).
  destruct m as [|p|p]; try lia.
  change (pretty (Z.pos p)) with (pretty (N.pos p)).
  unfold pretty, pretty_N. rewrite decide_False by done.
  destruct (pretty_N_go_digits n (N.pos p) "") as [Hlen Hdig].
  - split; [apply N2Z.inj_le|apply N2Z.inj_lt];
      rewrite N2Z.inj_pow, nat_N_Z; simpl Z.of_N; lia.
  - split; [by rewrite Hlen|by apply Hdig].
Qed.

Lemma length_append s1 s2 :
  String.length (s1 +:+ s2) = String.length s1 + String.length s2.
Proof. induction s1 as [|c s1 IH]; simpl; [done|]. by rewrite IH. Qed.

Lemma append_cons c s t : String c s +:+ t = String c (s +:+ t).
Proof. reflexivity. Qed.

Lemma length_replicate_char n c : String.length (replicate_char n c) = n.
Proof. induction n as [|n IH]; simpl; [done|]. by rewrite IH. Qed.

Lemma length_pad_left w c s :
  String.length (pad_left w c s) = w `max` String.length s.
Proof. unfold pad_left. rewrite length_append, length_replicate_char. lia. Qed.

Lemma significant_digits_spaces n s :
  significant_digits (replicate_char n " " +:+ s) = significant_digits s.
Proof. induction n as [|n IH]; simpl; done. Qed.

Lemma digit_not_e c : is_digit c = true -> Ascii.eqb c "e" = false.
Proof. by destruct c as [[] [] [] [] [] [] [] []]. Qed.

Lemma significant_digits_frac frac rest :
  all_digits frac = true ->
  significant_digits (frac +:+ String "e" rest) = String.length frac.
Proof.
  induction frac as [|c frac IH]; simpl; [done|].
  intros [Hc Hfrac]%andb_true_iff. by rewrite (digit_not_e c Hc), Hc, IH.
Qed.

Lemma dyadic_pos m e :
  (0 < (dyadic m e).1)%Z /\ (0 < (dyadic m e).2)%Z.
Proof.
  unfold dyadic. destruct (Z.leb_spec 0 e); simpl.
  - assert (0 < 2 ^ e)%Z by (apply Z.pow_pos_nonneg; lia). lia.
  - assert (0 < 2 ^ (- e))%Z by (apply Z.pow_pos_nonneg; lia). lia.
Qed.

Lemma length_exponent_text k :
  3 <= String.length (exponent_text k) /\
  ((-100 < k < 100)%Z -> String.length (exponent_text k) = 3).
Proof.
  unfold exponent_text. rewrite length_append, length_pad_left.
  assert (String.length (sign_text (k <? 0)%Z) = 1) as -> by (by destruct (k <? 0)%Z).
  split; [lia|]. intros Hk.
  assert (String.length (pretty (Z.abs k)) <= 2); [|lia].
  destruct (decide (Z.abs k = 0%Z)) as [->|Hne]; [simpl; lia|].
  destruct (decide (Z.abs k < 10)%Z).
  - destruct (pretty_Z_digits 0 (Z.abs k)) as [-> _]; simpl; lia.
  - destruct (pretty_Z_digits 1 (Z.abs k)) as [-> _]; simpl; lia.
Qed.

(** C7, as the code has it: a finite field value is written with its sign,
    one digit, a point and five more digits, that is six significant
    digits, then [e] and an exponent with its sign and at least two digits.
    The text is padded to twelve columns and is wider when the exponent
    needs three digits; infinities and NaN are written as words. *)
Theorem format_e_shape (x : pyfloat) :
  12 <= String.length (format_e x) /\
  match x with
  | FFin neg m e =>
      exists d0 frac k,
        format_e x
          = pad_left 12 " " (sign_text neg +:+ String d0 (String "." frac) +:+ "e"
                             +:+ exponent_text k) /\
        is_digit d0 = true /\ String.length frac = 5 /\ all_digits frac = true /\
        significant_digits (format_e x) = 6 /\
        ((-100 < k < 100)%Z -> String.length (format_e x) = 12)
  | FZero neg => format_e x = sign_text neg +:+ "0.00000e+00"
  | FInf neg => format_e x = "        " +:+ sign_text neg +:+ "inf"
  | FNan => format_e x = "        +nan"
  end.
Proof.
  split; [unfold format_e; rewrite length_pad_left; lia|].
  destruct x as [|neg|neg|neg m e]; [done|by destruct neg|by destruct neg|].
  unfold format_e, sci_text.
  destruct (dyadic_pos m e) as [Hnum Hden].
  destruct (dyadic m e) as [num den]. simpl in Hnum, Hden.
  pose proof (sci_digits_range 5 num den ltac:(lia) Hnum Hden) as Hrange.
  destruct (sci_digits 5 num den) as [mant k]. simpl in Hrange.
  destruct (pretty_Z_digits 5 mant Hrange) as [Hlen Hdig].
  unfold mantissa_text.
  destruct (pretty mant) as [|d0 frac]; [done|].
  simpl in Hlen, Hdig. apply andb_true_iff in Hdig as [Hd0 Hfrac].
  exists d0, frac, k. split; [done|]. split; [done|]. split; [lia|]. split; [done|].
  split.
  - unfold pad_left. rewrite significant_digits_spaces.
    assert (forall c, c <> "e"%char -> is_digit c = false ->
              significant_digits (String c (String d0 (String "." frac) +:+ "e"
                                            +:+ exponent_text k)) = 6) as Hcount.
    { intros c Hc Hnd. rewrite !append_cons. simpl.
      rewrite (proj2 (Ascii.eqb_neq c "e") Hc), Hnd, (digit_not_e d0 Hd0), Hd0.
      change ("e" +:+ exponent_text k) with (String "e" (exponent_text k)).
      rewrite significant_digits_frac by done. lia. }
    destruct neg; apply Hcount; done.
  - intros Hk. rewrite length_pad_left.
    destruct (length_exponent_text k) as [_ Hexp].
    rewrite !length_append, (Hexp Hk). simpl.
    destruct neg; simpl; lia.
Qed.

(** C7 as stated fails: the value 1.0 is written with six significant
    digits, and 1e100 takes thirteen columns. *)
Lemma format_e_not_five_digits_fixed_width :
  format_e f_one = "+1.00000e+00" /\
  ~ claimed_format (format_e f_one) /\
  format_e f_1e100 = "+1.00000e+100" /\
  ~ claimed_format (format_e f_1e100).
Proof.
  split; [by vm_compute|]. split; [|split; [by vm_compute|]].
  - intros [_ Hdigits]. vm_compute in Hdigits. discriminate.
  - intros [Hwidth _]. vm_compute in Hwidth. discriminate.
Qed.

Lemma format_e_shape_witness :
  String.length (format_e f_one) = 12 /\ significant_digits (format_e f_one) = 6.
Proof.
  destruct (format_e_shape f_one) as [_ (d0 & frac & k & Heq & _ & _ & _ & Hsig & _)].
  split; [by vm_compute|exact Hsig].
Defined.

(** ** The identifier of a node list *)

Lemma long_ident_rejected n :
  check_nl_id (PLong n) = Raise (AssertionError "int only idents").
Proof. reflexivity. Qed.

Section Identifiers.
Context `{SpheralMath}.

End Identifiers.


(** * Further properties *)

(** ** Records of the collected dictionary *)

Lemma lookup_zip8 xs vs ms rs us ps Ts Hs i x v m r u p T H :
  xs !! i = Some x -> vs !! i = Some v -> ms !! i = Some m -> rs !! i = Some r ->
  us !! i = Some u -> ps !! i = Some p -> Ts !! i = Some T -> Hs !! i = Some H ->
  zip8 xs vs ms rs us ps Ts Hs !! i = Some (mkNodeTuple x v m r u p T H).
Proof.
  intros Hx Hv Hm Hr Hu Hp HT HH. unfold zip8.
  rewrite list_lookup_fmap, !lookup_zip_with.
  by rewrite Hx, Hv, Hm, Hr, Hu, Hp, HT, HH.
Qed.

Lemma lookup_internalValues {A} nl (field : list A) i :
  i < numInternalNodes nl -> internalValues nl field !! i = field !! i.
Proof. intros Hi. unfold internalValues. by apply lookup_take_lt. Qed.

(** The tuple of an internal node holds the values of that node in every
    field, and the pressure and temperature of its own density and energy. *)
Lemma lookup_localFields nl i :
  internal_lengths_ok nl -> i < numInternalNodes nl ->
  exists x v m r u H,
    positions nl !! i = Some x /\ velocity nl !! i = Some v /\
    mass nl !! i = Some m /\ massDensity nl !! i = Some r /\
    specificThermalEnergy nl !! i = Some u /\ Hfield nl !! i = Some H /\
    localFields nl !! i
      = Some (mkNodeTuple x v m r u
                (eos_pressure (equationOfState nl) r u)
                (eos_temperature (equationOfState nl) r u) H).
Proof.
  intros (Hx & Hv & Hm & Hr & Hu & HH) Hi.
  destruct (lookup_lt_is_Some_2 (internalValues nl (positions nl)) i) as [x Hxi]; [lia|].
  destruct (lookup_lt_is_Some_2 (internalValues nl (velocity nl)) i) as [v Hvi]; [lia|].
  destruct (lookup_lt_is_Some_2 (internalValues nl (mass nl)) i) as [m Hmi]; [lia|].
  destruct (lookup_lt_is_Some_2 (internalValues nl (massDensity nl)) i) as [r Hri]; [lia|].
  destruct (lookup_lt_is_Some_2 (internalValues nl (specificThermalEnergy nl)) i)
    as [u Hui]; [lia|].
  destruct (lookup_lt_is_Some_2 (internalValues nl (Hfield nl)) i) as [H HHi]; [lia|].
  exists x, v, m, r, u, H.
  pose proof Hxi as Hx'. pose proof Hvi as Hv'. pose proof Hmi as Hm'.
  pose proof Hri as Hr'. pose proof Hui as Hu'. pose proof HHi as HH'.
  rewrite lookup_internalValues in Hx' by done.
  rewrite lookup_internalValues in Hv' by done.
  rewrite lookup_internalValues in Hm' by done.
  rewrite lookup_internalValues in Hr' by done.
  rewrite lookup_internalValues in Hu' by done.
  rewrite lookup_internalValues in HH' by done.
  repeat (split; [done|]).
  unfold localFields. apply lookup_zip8; try done.
  - unfold setPressure. by rewrite lookup_zip_with, Hr', Hu'.
  - unfold setTemperature. by rewrite lookup_zip_with, Hr', Hu'.
Qed.

Section NodeRecords.
Context `{SpheralMath}.

Lemma vec_entry_dict_of name gf key f k t :
  dict_of name gf !! key = Some (DVecs (f <$> gf)) ->
  gf !! k = Some t -> vec_entry (dict_of name gf) key k = Some (f t).
Proof.
  intros Hkey Hk. unfold vec_entry. by rewrite Hkey, list_lookup_fmap, Hk.
Qed.

Lemma scalar_entry_dict_of name gf key f k t :
  dict_of name gf !! key = Some (DScalars (f <$> gf)) ->
  gf !! k = Some t -> scalar_entry (dict_of name gf) key k = Some (f t).
Proof.
  intros Hkey Hk. unfold scalar_entry. by rewrite Hkey, list_lookup_fmap, Hk.
Qed.

(** X1: the entries at one index of the returned sequences all describe one
    and the same node. For the internal node [i] of rank [r], at the index
    [offset r + i], the dictionary holds the position, velocity, mass,
    density and energy of that node, the pressure and temperature that the
    equation of state gives for its own density and energy, and the
    eigenvalues of the inverse of its own H tensor. *)
Theorem dict_entries_describe_one_node (procs : nat) (group : nat -> NodeList)
    (rank : nat) (filename : pyval) (quiet : bool) (io : IO) (r i : nat) :
  (forall q, q < procs -> internal_lengths_ok (group q)) ->
  r < procs -> i < numInternalNodes (group r) ->
  exists d io' x v m rho u H,
    spickle_node_list procs group rank filename (PBool quiet) io = (Ok d, io') /\
    positions (group r) !! i = Some x /\ velocity (group r) !! i = Some v /\
    mass (group r) !! i = Some m /\ massDensity (group r) !! i = Some rho /\
    specificThermalEnergy (group r) !! i = Some u /\ Hfield (group r) !! i = Some H /\
    let k := offset group r + i in
    vec_entry d "x" k = Some (xyz x) /\
    vec_entry d "v" k = Some (xyz v) /\
    scalar_entry d "m" k = Some m /\
    scalar_entry d "rho" k = Some rho /\
    scalar_entry d "U" k = Some u /\
    scalar_entry d "p" k = Some (eos_pressure (equationOfState (group r)) rho u) /\
    scalar_entry d "T" k = Some (eos_temperature (equationOfState (group r)) rho u) /\
    vec_entry d "h" k = Some (xyz (inverse_eigenValues H)).
Proof.
  intros Hok Hr Hi.
  destruct (lookup_localFields (group r) i (Hok r Hr) Hi)
    as (x & v & m & rho & u & Ht & Hx & Hv & Hm & Hrho & Hu & HH & Hloc).
  exists (dict_of (nl_name (group rank)) (globalFields procs group)).
  eexists. exists x, v, m, rho, u, Ht.
  split; [by apply spickle_node_list_ok|].
  repeat (split; [done|]).
  assert (globalFields procs group !! (offset group r + i)
          = Some (mkNodeTuple x v m rho u
                    (eos_pressure (equationOfState (group r)) rho u)
                    (eos_temperature (equationOfState (group r)) rho u) Ht)) as Hk.
  { rewrite globalFields_concat, <-Hloc. unfold offset.
    apply (lookup_concat_contributions procs (fun q => localFields (group q))); [done|].
    by rewrite length_localFields by auto. }
  set (name := nl_name (group rank)). set (gf := globalFields procs group) in *.
  simpl.
  rewrite (vec_entry_dict_of name gf "x" (fun t => xyz (tup_x t)) _ _ eq_refl Hk).
  rewrite (vec_entry_dict_of name gf "v" (fun t => xyz (tup_v t)) _ _ eq_refl Hk).
  rewrite (vec_entry_dict_of name gf "h"
             (fun t => xyz (inverse_eigenValues (tup_H t))) _ _ eq_refl Hk).
  rewrite (scalar_entry_dict_of name gf "m" tup_m _ _ eq_refl Hk).
  rewrite (scalar_entry_dict_of name gf "rho" tup_rho _ _ eq_refl Hk).
  rewrite (scalar_entry_dict_of name gf "U" tup_u _ _ eq_refl Hk).
  rewrite (scalar_entry_dict_of name gf "p" tup_p _ _ eq_refl Hk).
  rewrite (scalar_entry_dict_of name gf "T" tup_T _ _ eq_refl Hk).
  done.
Qed.
End NodeRecords.

Lemma dict_entries_describe_one_node_witness :
  exists d io',
    spickle_node_list (H := demo_math) 2 demo_group 0 PNone (PBool true) empty_io
      = (Ok d, io') /\
    scalar_entry d "m" 3 = Some f_one /\ vec_entry d "x" 3 = Some (f_one, f_one, f_two).
Proof.
  destruct (dict_entries_describe_one_node (H := demo_math) 2 demo_group 0 PNone true
              empty_io 1 1)
    as (d & io' & x & v & m & rho & u & Ht & Hrun & Hx & _ & Hm & _ & _ & _ & Hd).
  - intros q _. apply demo_group_ok.
  - lia.
  - simpl. lia.
  - exists d, io'. split; [exact Hrun|].
    destruct Hd as (Hdx & _ & Hdm & _).
    vm_compute in Hx, Hm. injection Hx as <-. injection Hm as <-.
    split; [exact Hdm|exact Hdx].
Defined.

(** ** When the reduced count and the reduced sequence disagree *)

Lemma length_localFields_le nl : length (localFields nl) <= numInternalNodes nl.
Proof.
  unfold localFields. rewrite length_zip8. unfold internalValues.
  rewrite !length_take. lia.
Qed.

Lemma length_globalFields_le procs group :
  length (globalFields procs group) <= nbGlobalNodes procs group.
Proof.
  rewrite length_globalFields_sum. unfold nbGlobalNodes.
  rewrite allreduce_SUM_nat_sum.
  induction procs as [|n IH]; [done|].
  rewrite !contributions_S, !sum_list_with_app. simpl.
  pose proof (length_localFields_le (group n)). lia.
Qed.

Section CountMismatch.
Context `{SpheralMath}.

Lemma fill_loop_short gf n i d :
  i <= length gf < i + n -> fill_loop gf (seq i n) d = Raise IndexError.
Proof.
  revert i d. induction n as [|n IH]; intros i d Hlen; [lia|]. simpl.
  destruct (gf !! i) as [t|] eqn:Ht; [|done].
  apply IH. apply lookup_lt_Some in Ht. lia.
Qed.

(** X2: the call never returns a shortened dictionary. Either the reduced
    sequence has as many tuples as the reduced node count, and every rank
    returns the dictionary of all of them; or it has fewer (some field of
    some rank is shorter than the rank's [numInternalNodes]), and every rank
    raises [IndexError] before the pickling step, so that no file and no line
    of the error stream is written. *)
Theorem collect_all_or_index_error (procs : nat) (group : nat -> NodeList)
    (rank : nat) (filename : pyval) (quiet : bool) (io : IO) :
  let run := spickle_node_list procs group rank filename (PBool quiet) io in
  let gf := globalFields procs group in
  (length gf = nbGlobalNodes procs group /\
   run.1 = Ok (dict_of (nl_name (group rank)) gf)) \/
  (length gf < nbGlobalNodes procs group /\
   run.1 = Raise IndexError /\ files run.2 = files io /\ stderr run.2 = stderr io).
Proof.
  intros run gf. unfold run. rewrite spickle_node_list_unfold. simpl.
  pose proof (length_globalFields_le procs group) as Hle.
  destruct (decide (length gf = nbGlobalNodes procs group)) as [Heq|Hne].
  - left. split; [done|]. unfold gf in *. rewrite <-Heq, fill_loop_all. done.
  - right. split; [unfold gf in *; lia|].
    rewrite (fill_loop_short (globalFields procs group)) by (unfold gf in *; lia).
    simpl. by destruct quiet.
Qed.
End CountMismatch.

Example short_group_raises :
  (spickle_node_list (H := demo_math) 1 short_group 0 (PStr "out.pkl") (PBool true)
     empty_io).1 = Raise IndexError.
Proof. by vm_compute. Qed.

(** ** The pickled file and its reader *)

Lemma list_set_next {A} (new old : list A) (i : nat) (v : A) :
  new !! i = Some v -> length new = length old ->
  list_set (take i new ++ drop i old) i v
  = Fine (take (S i) new ++ drop (S i) old).
Proof.
  intros Hv Hlen. pose proof (lookup_lt_Some _ _ _ Hv) as Hi.
  unfold list_set. rewrite decide_True.
  2:{ rewrite length_app, length_take, length_drop. lia. }
  f_equal. rewrite insert_app_r_alt; rewrite length_take, Nat.min_l by lia; [|lia].
  rewrite Nat.sub_diag.
  destruct (lookup_lt_is_Some_2 old i) as [o Ho]; [lia|].
  rewrite (drop_S _ _ _ Ho). simpl.
  by rewrite (take_S_r _ _ _ Hv), <-app_assoc.
Qed.

Lemma substitute_steps pc gen n i :
  i + n = pc_nbNodes pc ->
  pc_nbNodes pc <= length (pc_pos pc) -> pc_nbNodes pc <= length (pc_m pc) ->
  generator_size gen (pc_nbNodes pc) ->
  let new := substituted pc in
  substitute pc (seq i n)
    (mkGenerator (take i (gen_x new) ++ drop i (gen_x gen))
                 (take i (gen_y new) ++ drop i (gen_y gen))
                 (take i (gen_z new) ++ drop i (gen_z gen))
                 (take i (gen_m new) ++ drop i (gen_m gen)))
  = Fine new.
Proof.
  intros Hin Hpos Hm (Hgx & Hgy & Hgz & Hgm) new.
  assert (generator_size new (pc_nbNodes pc)) as (Hnx & Hny & Hnz & Hnm).
  { unfold generator_size, new, substituted. simpl.
    rewrite !length_fmap, !length_take. lia. }
  assert (forall k p m, pc_pos pc !! k = Some p -> pc_m pc !! k = Some m ->
            k < pc_nbNodes pc ->
            gen_x new !! k = Some (IFloat p.1.1) /\
            gen_y new !! k = Some (IFloat p.1.2) /\
            gen_z new !! k = Some (IFloat p.2) /\
            gen_m new !! k = Some m) as Hnew.
  { intros k p m Hp Hmk Hk. unfold new, substituted. simpl.
    rewrite !list_lookup_fmap, !lookup_take_lt, Hp, Hmk by done. done. }
  clearbody new. revert i Hin.
  induction n as [|n IH]; intros i Hin.
  - simpl. rewrite Nat.add_0_r in Hin. subst i.
    rewrite !take_ge, !drop_ge, !app_nil_r by lia. by destruct new.
  - simpl.
    destruct (lookup_lt_is_Some_2 (pc_pos pc) i) as [p Hp]; [lia|].
    destruct (lookup_lt_is_Some_2 (pc_m pc) i) as [m Hmi]; [lia|].
    destruct (Hnew i p m Hp Hmi) as (Hx & Hy & Hz & Hmm); [lia|].
    unfold list_get. rewrite Hp, Hmi. simpl.
    rewrite (list_set_next (gen_x new) (gen_x gen) i _ Hx) by lia. simpl.
    rewrite (list_set_next (gen_y new) (gen_y gen) i _ Hy) by lia. simpl.
    rewrite (list_set_next (gen_z new) (gen_z gen) i _ Hz) by lia. simpl.
    rewrite (list_set_next (gen_m new) (gen_m gen) i _ Hmm) by lia. simpl.
    apply IH. lia.
Qed.

Lemma fill_generator_ok pc gen :
  pc_nbNodes pc <= length (pc_pos pc) -> pc_nbNodes pc <= length (pc_m pc) ->
  generator_size gen (pc_nbNodes pc) ->
  fill_generator pc gen = Fine (substituted pc).
Proof.
  intros Hpos Hm Hsize. unfold fill_generator, assert_num_nodes.
  destruct Hsize as (Hgx & Hrest). rewrite decide_True by done. simpl.
  pose proof (substitute_steps pc gen (pc_nbNodes pc) 0 eq_refl Hpos Hm
                (conj Hgx Hrest)) as Hrun.
  simpl in Hrun. rewrite !drop_0 in Hrun. by destruct gen.
Qed.

(** X3: the substitution loop of the reader runs to its end whenever the
    pickled positions and masses are at least as many as the densities and
    the generator has that many nodes, and then every entry of the four
    generator arrays has been replaced by the pickled coordinate or mass of
    the node with the same index. *)
Theorem substitution_replaces_every_node (pc : precooked) (gen : generator) :
  pc_nbNodes pc <= length (pc_pos pc) ->
  pc_nbNodes pc <= length (pc_m pc) ->
  generator_size gen (pc_nbNodes pc) ->
  fill_generator pc gen = Fine (substituted pc) /\
  generator_size (substituted pc) (pc_nbNodes pc) /\
  forall k p m, k < pc_nbNodes pc -> pc_pos pc !! k = Some p -> pc_m pc !! k = Some m ->
    gen_x (substituted pc) !! k = Some (IFloat p.1.1) /\
    gen_y (substituted pc) !! k = Some (IFloat p.1.2) /\
    gen_z (substituted pc) !! k = Some (IFloat p.2) /\
    gen_m (substituted pc) !! k = Some m.
Proof.
  intros Hpos Hm Hsize. split; [|split].
  - by apply fill_generator_ok.
  - unfold generator_size, substituted. simpl.
    rewrite !length_fmap, !length_take. lia.
  - intros k p m Hk Hp Hmk. unfold substituted. simpl.
    rewrite !list_lookup_fmap, !lookup_take_lt, Hp, Hmk by done. done.
Qed.

Lemma substitution_replaces_every_node_witness :
  fill_generator demo_precooked small_generator
  = Fine (mkGenerator [IFloat f_one; IFloat f_half] [IFloat f_two; IFloat f_one]
            [IFloat f_half; IFloat f_two] [IFloat f_two; IFloat f_half]).
Proof.
  destruct (substitution_replaces_every_node demo_precooked small_generator)
    as (Hrun & _).
  - simpl. lia.
  - simpl. lia.
  - by vm_compute.
  - exact Hrun.
Defined.


Section RoundTrip.
Context `{SpheralMath}.


End RoundTrip.


(** ** Materials *)

Lemma material_dictionary_lookup tag :
  material_dictionary !! tag
  = match shipped_name tag with
    | Some name =>
        Some (mkMaterial "tillotson" TillotsonEquationOfState (mkEosArguments name)
                (if String.eqb tag "h2oice" then 1 else 2))
    | None => None
    end.
Proof.
  unfold shipped_name, material_dictionary, material_dictionary_h2oice.
  destruct (String.eqb_spec tag "dirtyice") as [->|Hd].
  - by rewrite lookup_insert_eq.
  - rewrite lookup_insert_ne by done.
    destruct (String.eqb_spec tag "h2oice") as [->|Hh].
    + by rewrite lookup_insert_eq.
    + by rewrite lookup_insert_ne.
Qed.

(** X5: with the dictionary as the module fills it, the branch "not yet
    implemented" is never taken: the call neither prints nor returns
    [None]. For the two tags of the dictionary, a units object and two
    floats it returns the Tillotson equation of state of the material with
    these bounds and units; in every other case, an integer bound included,
    an assertion fails. *)
Theorem construct_eos_for_shipped_materials (material_tag : string) (units : units_arg)
    (etamin etamax : pyval) :
  construct_eos_for_material material_dictionary material_tag units etamin etamax
  = match shipped_name material_tag, units, etamin, etamax with
    | Some name, UnitsObject u, PFloat lo, PFloat hi =>
        (Ok (Some (mkEosObject TillotsonEquationOfState name lo hi u)), [])
    | _, _, _, _ => (Raise (AssertionError ""), [])
    end.
Proof.
  unfold construct_eos_for_material. rewrite material_dictionary_lookup.
  destruct (shipped_name material_tag) as [name|]; [|done].
  destruct units as [u|v]; [|done].
  destruct etamin; try done. destruct etamax; done.
Qed.

(** ** The file at every moment of a run *)










Section TableSoFar.
Context `{SpheralMath}.






End TableSoFar.




(** ** Calls that fail their assertions *)

Lemma rejected_step e ps ev ps' :
  rejected e ps -> step ps ev ps' -> rejected e ps' /\ exists r, ev = ERaise r e.
Proof.
  intros Hrej Hstep. destruct Hstep as [ps r o rest Hr|ps c Hne Hall|ps r e' rest Hr].
  - destruct (proj1 (Forall_lookup _ _) Hrej r _ Hr) as [?|?]; done.
  - destruct ps as [|p ps]; [done|].
    apply Forall_cons in Hrej as [[->| ->] _]; by apply Forall_cons in Hall as [? _].
  - destruct (proj1 (Forall_lookup _ _) Hrej r _ Hr) as [?|Heq]; [done|].
    injection Heq as -> ->. split; [|by exists r].
    apply Forall_insert; [done|]. by left.
Qed.

Lemma rejected_exec e ps tr ps' :
  rejected e ps -> exec ps tr ps' ->
  rejected e ps' /\ Forall (fun ev => exists r, ev = ERaise r e) tr.
Proof.
  intros Hrej Hexec. induction Hexec as [ps|ps ev ps1 tr ps2 Hstep _ IH]; [done|].
  destruct (rejected_step e ps ev ps1 Hrej Hstep) as [Hrej1 Hev].
  destruct (IH Hrej1) as [Hrej2 Htr]. split; [done|]. by constructor.
Qed.

Lemma rejected_completes e pre ps :
  rejected e ps -> exists tr, exec (pre ++ ps) tr (pre ++ replicate (length ps) []).
Proof.
  intros Hrej. revert pre. induction Hrej as [|p ps Hp _ IH]; intros pre.
  - exists []. apply exec_nil.
  - destruct (IH (pre ++ [[]])) as [tr Htr]. rewrite <-!app_assoc in Htr. simpl in Htr.
    destruct Hp as [->| ->]; [by exists tr|].
    exists (ERaise (length pre) e :: tr). eapply exec_cons; [|exact Htr].
    replace (pre ++ [] :: ps) with (<[length pre := []]> (pre ++ [Throw e] :: ps)).
    + apply (step_raise _ _ e []). by rewrite list_lookup_middle.
    + rewrite insert_app_r_alt, Nat.sub_diag by lia. done.
Qed.

Lemma raises_leave_no_trace e (fs : gmap string (list chunk)) tr :
  Forall (fun ev => exists r, ev = ERaise r e) tr -> run fs tr = fs /\ syncs tr = [].
Proof.
  intros Htr. induction Htr as [|ev tr [r ->] _ [IH1 IH2]]; [done|].
  split; [exact IH1|exact IH2].
Qed.

Lemma rejected_run e ps (fs : gmap string (list chunk)) tr ps' :
  rejected e ps -> exec ps tr ps' ->
  Forall (fun ev => exists r, ev = ERaise r e) tr /\
  run fs tr = fs /\ syncs tr = [] /\
  exists tr2 ps'', exec ps' tr2 ps'' /\ finished ps''.
Proof.
  intros Hrej Hexec.
  destruct (rejected_exec e ps tr ps' Hrej Hexec) as [Hrej' Htr].
  destruct (raises_leave_no_trace e fs tr Htr) as [Hrun Hsyncs].
  repeat (split; [done|]).
  destruct (rejected_completes e [] ps' Hrej') as [tr2 Htr2].
  exists tr2, (replicate (length ps') []). split; [done|].
  by apply Forall_replicate.
Qed.

Section Rejected.
Context `{SpheralMath}.

(** X8: the assertions of [pflatten_node_list] come before everything
    else. When one of them fails, every rank raises the same exception, and
    in every run of the group nothing but these exceptions happens: no file
    is created or changed, no collective call is entered, and no rank is
    left waiting for another. *)
Theorem rejected_call_touches_nothing (procs : nat) (group : nat -> NodeList)
    (filename do_header nl_id silent : pyval) (e : pyexn)
    (fs : gmap string (list chunk)) (tr : list event) (ps' : list (list action)) :
  pflatten_check filename do_header nl_id silent = Raise e ->
  exec (pflatten_group procs group filename do_header nl_id silent) tr ps' ->
  Forall (fun ev => exists r, ev = ERaise r e) tr /\
  run fs tr = fs /\ syncs tr = [] /\
  exists tr2 ps'', exec ps' tr2 ps'' /\ finished ps''.
Proof.
  intros Hcheck. apply rejected_run.
  unfold rejected, pflatten_group, contributions. apply Forall_fmap, Forall_forall.
  intros r _. simpl. unfold pflatten_node_list. rewrite Hcheck. by right.
Qed.

(** X9: the same for [pflatten_node_list_list]. *)
Theorem rejected_list_call_touches_nothing (procs : nat) (nls : list (nat -> NodeList))
    (filename do_header silent : pyval) (e : pyexn)
    (fs : gmap string (list chunk)) (tr : list event) (ps' : list (list action)) :
  pflatten_list_check filename do_header silent = Raise e ->
  exec (pflatten_list_group procs nls filename do_header silent) tr ps' ->
  Forall (fun ev => exists r, ev = ERaise r e) tr /\
  run fs tr = fs /\ syncs tr = [] /\
  exists tr2 ps'', exec ps' tr2 ps'' /\ finished ps''.
Proof.
  intros Hcheck. apply rejected_run.
  unfold rejected, pflatten_list_group, contributions. apply Forall_fmap, Forall_forall.
  intros r _. simpl. unfold pflatten_node_list_list. rewrite Hcheck. by right.
Qed.
End Rejected.

Lemma unnamed_call_run :
  exec unnamed_call [ERaise 1 not_a_string; ERaise 0 not_a_string] [[]; []].
Proof.
  eapply exec_cons; [eapply (step_raise _ 1); vm_compute; reflexivity|].
  eapply exec_cons; [eapply (step_raise _ 0); vm_compute; reflexivity|].
  apply exec_nil.
Qed.

Lemma rejected_call_touches_nothing_witness :
  run other_files [ERaise 1 not_a_string; ERaise 0 not_a_string] = other_files /\
  syncs [ERaise 1 not_a_string; ERaise 0 not_a_string] = [].
Proof.
  destruct (rejected_call_touches_nothing (H := demo_math) 2 demo_group PNone (PBool true)
              (PInt 0) (PBool true) not_a_string other_files _ _ eq_refl
              unnamed_call_run) as (_ & Hrun & Hsyncs & _).
  split; [exact Hrun|exact Hsyncs].
Defined.

Lemma unnamed_list_call_run :
  exec unnamed_list_call [ERaise 0 not_a_string] [[]; [Throw not_a_string]].
Proof.
  eapply exec_cons; [eapply (step_raise _ 0); vm_compute; reflexivity|].
  apply exec_nil.
Qed.

Lemma rejected_list_call_touches_nothing_witness :
  run other_files [ERaise 0 not_a_string] = other_files /\
  exists tr2 ps'', exec [[]; [Throw not_a_string]] tr2 ps'' /\ finished ps''.
Proof.
  destruct (rejected_list_call_touches_nothing (H := demo_math) 2 [demo_group; demo_group]
              PNone (PBool true) (PBool true) not_a_string other_files _ _ eq_refl
              unnamed_list_call_run) as (_ & Hrun & _ & Hend).
  split; [exact Hrun|exact Hend].
Defined.

(** ** The table and the dictionary hold the same records *)


Section SameRecords.
Context `{SpheralMath}.




End SameRecords.


(** ** Reading the table back *)

Lemma string_app_assoc (a b c : string) : (a +:+ b) +:+ c = a +:+ (b +:+ c).
Proof. induction a as [|x a IH]; [done|]. by rewrite !append_cons, IH. Qed.

Lemma no_space_app a b : no_space (a +:+ b) = no_space a && no_space b.
Proof.
  induction a as [|c a IH]; [done|]. rewrite append_cons. simpl.
  by rewrite IH, andb_assoc.
Qed.

Lemma digit_not_space c : is_digit c = true -> is_space c = false.
Proof. by destruct c as [[] [] [] [] [] [] [] []]. Qed.

Lemma all_digits_no_space s : all_digits s = true -> no_space s = true.
Proof.
  induction s as [|c s IH]; [done|]. simpl.
  intros [Hc Hs]%andb_true_iff. by rewrite (digit_not_space c Hc), IH.
Qed.

Lemma pretty_N_go_all_digits (x : N) (s : string) :
  all_digits s = true -> all_digits (pretty_N_go x s) = true.
Proof.
  revert s. induction (N.lt_wf_0 x) as [x _ IH]; intros s Hs.
  destruct (decide (x = 0%N)) as [->|Hne]; [by rewrite pretty_N_go_0|].
  rewrite pretty_N_go_step by lia. apply IH.
  - apply N.div_lt; lia.
  - simpl. by rewrite is_digit_pretty_N_char.
Qed.

Lemma pretty_N_go_nonempty (x : N) (s : string) : s <> "" -> pretty_N_go x s <> "".
Proof.
  revert s. induction (N.lt_wf_0 x) as [x _ IH]; intros s Hs.
  destruct (decide (x = 0%N)) as [->|Hne]; [by rewrite pretty_N_go_0|].
  rewrite pretty_N_go_step by lia. apply IH; [apply N.div_lt; lia|done].
Qed.

Lemma pretty_N_digits (x : N) : all_digits (pretty x) = true /\ pretty x <> "".
Proof.
  unfold pretty, pretty_N. destruct (decide (x = 0%N)) as [->|Hne]; [done|].
  split; [by apply pretty_N_go_all_digits|].
  rewrite pretty_N_go_step by lia. by apply pretty_N_go_nonempty.
Qed.

Lemma pretty_Z_word (z : Z) : no_space (pretty z) = true /\ pretty z <> "".
Proof.
  destruct z as [|p|p].
  - done.
  - change (pretty (Z.pos p)) with (pretty (N.pos p)).
    destruct (pretty_N_digits (N.pos p)) as [Hd Hne].
    split; [by apply all_digits_no_space|done].
  - change (pretty (Z.neg p)) with ("-" +:+ pretty (N.pos p)).
    destruct (pretty_N_digits (N.pos p)) as [Hd Hne].
    split; [|done]. rewrite no_space_app, (all_digits_no_space _ Hd). done.
Qed.

Lemma no_space_replicate_zero n : no_space (replicate_char n "0") = true.
Proof. induction n as [|n IH]; [done|]. simpl. by rewrite IH. Qed.

Lemma no_space_mantissa_text m : no_space (mantissa_text m) = true.
Proof.
  unfold mantissa_text. destruct (pretty_Z_word m) as [Hm _].
  destruct (pretty m) as [|d rest]; [done|]. simpl in *.
  apply andb_true_iff in Hm as [-> ->]. done.
Qed.

Lemma sci_text_word x : no_space (sci_text 5 x) = true /\ sci_text 5 x <> "".
Proof.
  destruct x as [|neg|neg|neg m e].
  - done.
  - by destruct neg.
  - by destruct neg.
  - unfold sci_text. destruct (dyadic m e) as [num den].
    destruct (sci_digits 5 num den) as [mant k]. split; [|by destruct neg].
    unfold exponent_text, pad_left.
    rewrite !no_space_app, no_space_mantissa_text, no_space_replicate_zero.
    destruct (pretty_Z_word (Z.abs k)) as [-> _].
    by destruct neg, (k <? 0)%Z.
Qed.

Lemma tokens_pad n s : tokens (replicate_char n " " +:+ s) = tokens s.
Proof. induction n as [|n IH]; [done|]. simpl replicate_char. by rewrite append_cons. Qed.

Lemma tokens_word w rest :
  w <> "" -> no_space w = true ->
  tokens (w +:+ String " " rest) = w :: tokens rest.
Proof.
  intros Hne Hw. induction w as [|c w IH]; [done|].
  simpl in Hw. apply andb_true_iff in Hw as [Hc Hw]. apply negb_true_iff in Hc.
  rewrite append_cons. destruct w as [|c' w].
  - simpl. by rewrite Hc.
  - specialize (IH ltac:(done) Hw). rewrite append_cons in *.
    simpl in Hw. apply andb_true_iff in Hw as [Hc' _]. apply negb_true_iff in Hc'.
    change (tokens (String c (String c' (w +:+ String " " rest))))
      with (if is_space c then tokens (String c' (w +:+ String " " rest))
            else if is_space c' then [String c ""] ++ tokens (String c' (w +:+ String " " rest))
                 else match tokens (String c' (w +:+ String " " rest)) with
                      | t :: ts => String c t :: ts
                      | [] => [String c ""]
                      end).
    by rewrite Hc, Hc', IH.
Qed.

(** A padded field followed by the separator of two spaces. *)
Lemma tokens_field n w rest :
  w <> "" -> no_space w = true ->
  tokens (pad_left n " " w +:+ "  " +:+ rest) = w :: tokens rest.
Proof.
  intros Hne Hw. unfold pad_left. rewrite string_app_assoc, tokens_pad.
  change ("  " +:+ rest) with (String " " (String " " rest)).
  by rewrite tokens_word.
Qed.

Lemma count_newlines_app a b :
  count_newlines (a +:+ b) = count_newlines a + count_newlines b.
Proof.
  induction a as [|c a IH]; [done|]. rewrite append_cons. simpl. rewrite IH. lia.
Qed.

Lemma space_of_newline c : is_newline c = true -> is_space c = true.
Proof. by destruct c as [[] [] [] [] [] [] [] []]. Qed.

Lemma no_space_count_newlines s : no_space s = true -> count_newlines s = 0.
Proof.
  induction s as [|c s IH]; [done|]. simpl.
  intros [Hc Hs]%andb_true_iff. rewrite IH by done.
  destruct (is_newline c) eqn:Hnl; [|done].
  by rewrite (space_of_newline c Hnl) in Hc.
Qed.

Lemma count_newlines_pad n s :
  count_newlines (pad_left n " " s) = count_newlines s.
Proof.
  unfold pad_left. rewrite count_newlines_app.
  induction (n - String.length s) as [|k IH]; [done|]. simpl. exact IH.
Qed.

Lemma text_lines_nonempty s : text_lines s <> [].
Proof. destruct s as [|c s]; [done|]. simpl. by repeat case_match. Qed.

Lemma text_lines_app a b :
  text_lines (a +:+ b) = join_lines (text_lines a) (text_lines b).
Proof.
  pose proof (text_lines_nonempty b) as Hb.
  induction a as [|c a IH].
  - change ("" +:+ b) with b. simpl. by destruct (text_lines b).
  - pose proof (text_lines_nonempty a) as Ha.
    rewrite append_cons. simpl. rewrite IH. destruct (is_newline c).
    + simpl. by destruct (text_lines a).
    + destruct (text_lines a) as [|l [|l' la]]; [done| |done].
      simpl. by destruct (text_lines b).
Qed.

Lemma text_lines_one s : count_newlines s = 0 -> text_lines s = [s].
Proof.
  induction s as [|c s IH]; [done|]. simpl.
  destruct (is_newline c); [done|]. intros Hs. by rewrite IH.
Qed.

Section ReadBack.
Context `{SpheralMath}.

Lemma record_line_fields (nl_id : Z) (t : NodeTuple) :
  tokens (record_line nl_id t) = pretty nl_id :: (sci_text 5 <$> record_values t) /\
  count_newlines (record_line nl_id t) = 1 /\
  exists body, record_line nl_id t = body +:+ newline.
Proof.
  split; [|split].
  - unfold record_line, format_2d, format_e.
    destruct (pretty_Z_word nl_id) as [Hi1 Hi2].
    rewrite tokens_field by done.
    repeat (rewrite tokens_field by apply sci_text_word).
    reflexivity.
  - unfold record_line, format_2d, format_e.
    rewrite !count_newlines_app, !count_newlines_pad.
    rewrite !(no_space_count_newlines (sci_text 5 _)) by apply sci_text_word.
    rewrite (no_space_count_newlines (pretty nl_id)) by apply pretty_Z_word.
    reflexivity.
  - unfold record_line. eexists. rewrite <-!string_app_assoc. reflexivity.
Qed.

Lemma node_line_is_record_line nl nl_id nk line :
  node_line nl nl_id nk = Some line -> exists t, line = record_line nl_id t.
Proof.
  unfold node_line. intros Hline.
  destruct (internalValues nl (positions nl) !! nk) as [x|]; [|done].
  destruct (internalValues nl (velocity nl) !! nk) as [v|]; [|done].
  destruct (internalValues nl (mass nl) !! nk) as [m|]; [|done].
  destruct (internalValues nl (massDensity nl) !! nk) as [r|]; [|done].
  destruct (setPressure _ _ _ !! nk) as [p|]; [|done].
  destruct (setTemperature _ _ _ !! nk) as [T|]; [|done].
  destruct (internalValues nl (specificThermalEnergy nl) !! nk) as [u|]; [|done].
  destruct (internalValues nl (Hfield nl) !! nk) as [Ht|]; [|done].
  injection Hline as <-. by exists (mkNodeTuple x v m r u p T Ht).
Qed.

(** X11: a line of the table splits at white space into exactly fourteen
    fields: the identifier as printed, which determines it, and the texts
    of thirteen values, whatever their widths, none empty and no two
    merged. The line holds one line feed, its last character. *)
Theorem data_line_splits_into_fourteen_fields (nl : NodeList) (nl_id : Z) (nk : nat)
    (line : string) :
  node_line nl nl_id nk = Some line ->
  (exists values,
     length values = 13 /\ tokens line = pretty nl_id :: (sci_text 5 <$> values)) /\
  (forall nl' nl_id' nk' line',
     node_line nl' nl_id' nk' = Some line' ->
     head (tokens line') = head (tokens line) -> nl_id' = nl_id) /\
  count_newlines line = 1 /\
  exists body, line = body +:+ newline.
Proof.
  intros Hline. destruct (node_line_is_record_line _ _ _ _ Hline) as [t ->].
  destruct (record_line_fields nl_id t) as (Htok & Hcount & Hend).
  split; [by exists (record_values t)|]. split; [|done].
  intros nl' nl_id' nk' line' Hline'.
  destruct (node_line_is_record_line _ _ _ _ Hline') as [t' ->].
  destruct (record_line_fields nl_id' t') as (Htok' & _).
  rewrite Htok, Htok'. simpl. intros Heq. injection Heq as Heq.
  by apply (inj pretty) in Heq.
Qed.

(** X12: the header is a block of comments that ends its last line: each
    of its lines is empty or begins with [#], the fifth one states the
    count, and what is written after the header starts on a line of its
    own. *)
Theorem header_is_a_comment_block (n : nat) :
  forallb comment_or_blank (text_lines (header_text n)) = true /\
  text_lines (header_text n) !! 4
  = Some ("# file should contain " +:+ pretty n
          +:+ " data lines, one per SPH node used in the simulation.") /\
  last (text_lines (header_text n)) = Some "".
Proof.
  unfold header_text. rewrite !text_lines_app.
  rewrite (text_lines_one (pretty n)).
  - generalize (pretty n). intros d. by vm_compute.
  - apply no_space_count_newlines, all_digits_no_space.
    change (pretty n) with (pretty (N.of_nat n)). apply pretty_N_digits.
Qed.
End ReadBack.

Lemma data_line_splits_into_fourteen_fields_witness :
  tokens demo_line
  = ["0"; "+1.00000e+00"; "+1.00000e+00"; "+2.00000e+00"; "+1.00000e+00"; "+1.00000e+00";
     "+2.00000e+00"; "+1.00000e+00"; "+1.00000e+00"; "+1.00000e+00"; "+1.00000e+00";
     "+1.00000e+00"; "+1.00000e+00"; "+2.00000e+00"] /\
  count_newlines demo_line = 1.
Proof.
  destruct (data_line_splits_into_fourteen_fields (H := demo_math) (demo_group 0) 0 0
              demo_line) as (_ & _ & Hcount & _).
  - by vm_compute.
  - split; [by vm_compute|exact Hcount].
Defined.

(** ** File names of the periodic output *)













Section PeriodicOutput.
Context `{SpheralMath}.

End PeriodicOutput.


